(** * Ranking optional intervals with a circuit constraint

    A shallow embedding of [rank_tasks_with_circuit] from
    [ortools/sat/samples/ranking_circuit_sample_sat.py] together with the
    semantics of the constraints it posts, and the properties of the
    encoding that follow from them. *)

From stdpp Require Import base list strings pretty.
From Stdlib Require Import ZArith Lia.

Local Open Scope string_scope.
Local Open Scope list_scope.
Local Open Scope nat_scope.

(** ** Data model *)

(** Integer variables and Boolean variables are identified by an index.
    The integer variables (starts, ranks) are the caller's; the Boolean
    variables are positions in the model's list of Boolean variables. *)
Definition ivar := nat.
Definition bvar := nat.

(** A Boolean literal is a Boolean variable or its negation. *)
Inductive lit : Type :=
  | Pos (v : bvar)
  | Neg (v : bvar).

(** Modelled from the spec: [x.Not()], which is not in the sample, is the
    negation of the literal [x]. *)
Definition Not (l : lit) : lit :=
  match l with
  | Pos v => Neg v
  | Neg v => Pos v
  end.

Definition lit_var (l : lit) : bvar :=
  match l with
  | Pos v => v
  | Neg v => v
  end.

(** Linear expressions as the encoder writes them: a variable, a constant,
    or a sum. *)
Inductive LinearExpr : Type :=
  | EVar (v : ivar)
  | EConst (c : Z)
  | EAdd (e1 e2 : LinearExpr).

(** [e1 == e2] and [e1 >= e2]. *)
Inductive BoundedLinearExpression : Type :=
  | Eq (e1 e2 : LinearExpr)
  | Ge (e1 e2 : LinearExpr).

(** An arc handed to the circuit constraint: [(tail, head, literal)]. *)
Definition ArcT : Type := nat * nat * lit.

Inductive ConstraintBody : Type :=
  | Linear (ct : BoundedLinearExpression)
  | Implication (a b : lit)
  | Circuit (arcs : list ArcT).

(** A posted constraint: a body and the literals that gate it
    ([OnlyEnforceIf]). *)
Record Constraint : Type := mkConstraint {
  enforcement_literal : list lit;
  body : ConstraintBody
}.

(** Modelled from the spec: the shared model object, whose class is not
    in the sample.  It holds the names of the Boolean variables created so
    far (a variable is its position in this list) and the constraints
    posted so far, oldest first. *)
Record CpModel : Type := mkModel {
  bool_vars : list string;
  constraints : list Constraint
}.

#[global] Instance lit_eq_dec : EqDecision lit.
Proof. solve_decision. Defined.
#[global] Instance LinearExpr_eq_dec : EqDecision LinearExpr.
Proof. solve_decision. Defined.
#[global] Instance BoundedLinearExpression_eq_dec :
  EqDecision BoundedLinearExpression.
Proof. solve_decision. Defined.
#[global] Instance ConstraintBody_eq_dec : EqDecision ConstraintBody.
Proof. solve_decision. Defined.
#[global] Instance Constraint_eq_dec : EqDecision Constraint.
Proof. solve_decision. Defined.

(** ** The model-building monad

    The encoder mutates the model in place and may raise [IndexError] when
    it subscripts a sequence out of range.  A computation therefore maps the
    model to either a value and the updated model, or an exception and the
    model as it stands when the exception is raised. *)

Inductive exn : Type :=
  | IndexError.

Inductive result (A : Type) : Type :=
  | Ok (a : A) (m : CpModel)
  | Raise (e : exn) (m : CpModel).
Arguments Ok {A} a m.
Arguments Raise {A} e m.

Definition M (A : Type) : Type := CpModel -> result A.

Definition ret {A} (a : A) : M A := fun m => Ok a m.

Definition bind {A B} (c : M A) (k : A -> M B) : M B :=
  fun m =>
    match c m with
    | Ok a m' => k a m'
    | Raise e m' => Raise e m'
    end.

#[global] Instance M_ret : MRet M := @ret.
#[global] Instance M_bind : MBind M := fun A B k c => bind c k.

(** [for x in xs: s = body(x, s)], threading the loop's local state [s]. *)
Fixpoint for_each {A S} (xs : list A) (body : A -> S -> M S) (s : S) : M S :=
  match xs with
  | [] => ret s
  | x :: xs' => s' ← body x s; for_each xs' body s'
  end.

(** [xs[i]] for a non-negative index. *)
Definition index {A} (xs : list A) (i : nat) : M A :=
  fun m =>
    match xs !! i with
    | Some x => Ok x m
    | None => Raise IndexError m
    end.

(** ** The modelling operations the encoder calls

    The model class lives in the solver's Python layer, not in the sample;
    its operations are taken from the modelling capability the
    specification lists: fresh Boolean literals, linear constraints gated
    by a literal, implications, and a circuit over arcs. *)

(** Modelled from the spec: [model.NewBoolVar(name)], which is not in the
    sample, creates a fresh Boolean decision literal. *)
Definition NewBoolVar (name : string) : M lit :=
  fun m =>
    Ok (Pos (length (bool_vars m)))
       (mkModel (bool_vars m ++ [name]) (constraints m)).

(** Modelled from the spec: [model.Add(ct)], which is not in the sample,
    posts a linear constraint, ungated for now, and returns a handle to it
    (its position). *)
Definition Add (ct : BoundedLinearExpression) : M nat :=
  fun m =>
    Ok (length (constraints m))
       (mkModel (bool_vars m) (constraints m ++ [mkConstraint [] (Linear ct)])).

Definition add_enforcement (l : lit) (c : Constraint) : Constraint :=
  mkConstraint (enforcement_literal c ++ [l]) (body c).

(** Modelled from the spec: [handle.OnlyEnforceIf(l)], which is not in the
    sample, gates the constraint behind the handle by the literal [l]; the
    constraint is mutated in place. *)
Definition OnlyEnforceIf (handle : nat) (l : lit) : M unit :=
  fun m =>
    Ok tt (mkModel (bool_vars m)
                   (alter (add_enforcement l) handle (constraints m))).

(** Modelled from the spec: [model.AddImplication(a, b)], which is not in
    the sample, posts "literal [a] true implies literal [b] true". *)
Definition AddImplication (a b : lit) : M unit :=
  fun m =>
    Ok tt (mkModel (bool_vars m)
                   (constraints m ++ [mkConstraint [] (Implication a b)])).

(** Modelled from the spec: [model.AddCircuit(arcs)], which is not in the
    sample, posts one circuit constraint over the given
    [(tail, head, literal)] triples. *)
Definition AddCircuit (arcs : list ArcT) : M unit :=
  fun m =>
    Ok tt (mkModel (bool_vars m)
                   (constraints m ++ [mkConstraint [] (Circuit arcs)])).

(** ** The encoder *)

(** The body of the inner loop, for the pair [(i, j)]. *)
Definition rank_pair (starts : list ivar) (durations : list Z)
    (presences : list lit) (ranks : list ivar)
    (i j : nat) (arcs : list ArcT) : M (list ArcT) :=
  if decide (i = j) then
    p ← index presences i;
    let arcs := arcs ++ [(i + 1, i + 1, Not p)] in
    r ← index ranks i;
    c ← Add (Eq (EVar r) (EConst (-1)));
    p' ← index presences i;
    OnlyEnforceIf c (Not p');;
    ret arcs
  else
    literal ← NewBoolVar ("arc_" +:+ pretty i +:+ "_to_" +:+ pretty j);
    let arcs := arcs ++ [(i + 1, j + 1, literal)] in
    rj ← index ranks j;
    ri ← index ranks i;
    c ← Add (Eq (EVar rj) (EAdd (EVar ri) (EConst 1)));
    OnlyEnforceIf c literal;;
    sj ← index starts j;
    si ← index starts i;
    d ← index durations i;
    c' ← Add (Ge (EVar sj) (EAdd (EVar si) (EConst d)));
    OnlyEnforceIf c' literal;;
    ret arcs.

(** The body of the outer loop, for task [i]. *)
Definition rank_task (starts : list ivar) (durations : list Z)
    (presences : list lit) (ranks : list ivar)
    (all_tasks : list nat) (i : nat) (arcs : list ArcT) : M (list ArcT) :=
  start_lit ← NewBoolVar ("start_" +:+ pretty i);
  let arcs := arcs ++ [(0, i + 1, start_lit)] in
  r ← index ranks i;
  c ← Add (Eq (EVar r) (EConst 0));
  OnlyEnforceIf c start_lit;;
  s ← index starts i;
  c' ← Add (Eq (EVar s) (EConst 0));
  OnlyEnforceIf c' start_lit;;
  end_lit ← NewBoolVar ("end_" +:+ pretty i);
  let arcs := arcs ++ [(i + 1, 0, end_lit)] in
  for_each all_tasks (rank_pair starts durations presences ranks i) arcs.

Definition rank_tasks_with_circuit (starts : list ivar) (durations : list Z)
    (presences : list lit) (ranks : list ivar) : M unit :=
  let num_tasks := length starts in
  let all_tasks := seq 0 num_tasks in
  arcs ← for_each all_tasks
            (rank_task starts durations presences ranks all_tasks) [];
  empty ← NewBoolVar "empty";
  let arcs := arcs ++ [(0, 0, empty)] in
  for_each all_tasks
    (fun i (_ : unit) =>
       p ← index presences i; AddImplication empty (Not p)) tt;;
  AddCircuit arcs.

(** ** Semantics of a model

    The solver is not part of the sample; the meaning of the constraints
    it is handed is taken from the specification.  An assignment gives
    every integer variable a value and every Boolean variable a truth
    value. *)

Record assignment : Type := mkAssignment {
  ival : ivar -> Z;
  bval : bvar -> bool
}.

(** Modelled from the spec: a negated literal is true exactly when the
    variable is false. *)
Definition lit_true (a : assignment) (l : lit) : bool :=
  match l with
  | Pos v => bval a v
  | Neg v => negb (bval a v)
  end.

Fixpoint eval (a : assignment) (e : LinearExpr) : Z :=
  match e with
  | EVar v => ival a v
  | EConst c => c
  | EAdd e1 e2 => (eval a e1 + eval a e2)%Z
  end.

Definition holds (a : assignment) (ct : BoundedLinearExpression) : bool :=
  match ct with
  | Eq e1 e2 => (eval a e1 =? eval a e2)%Z
  | Ge e1 e2 => (eval a e2 <=? eval a e1)%Z
  end.

(** The arcs whose literal is true, as (tail, head) pairs. *)
Definition selected (a : assignment) (arcs : list ArcT) : list (nat * nat) :=
  (filter (fun t : ArcT => lit_true a t.2 = true) arcs).*1.

(** The nodes of the graph are the endpoints of its arcs. *)
Definition nodes (arcs : list ArcT) : list nat :=
  remove_dups (flat_map (fun t : ArcT => [t.1.1; t.1.2]) arcs).

Definition out_degree (sel : list (nat * nat)) (v : nat) : nat :=
  length (filter (fun e : nat * nat => e.1 = v) sel).

Definition in_degree (sel : list (nat * nat)) (v : nat) : nat :=
  length (filter (fun e : nat * nat => e.2 = v) sel).

Definition uses_self_loop (sel : list (nat * nat)) (v : nat) : Prop :=
  (v, v) ∈ sel.

#[global] Instance uses_self_loop_dec sel v : Decision (uses_self_loop sel v).
Proof. unfold uses_self_loop. apply _. Defined.

(** [path sel u vs w]: the arcs [u -> vs_1 -> ... -> vs_k -> w] are all
    selected. *)
Fixpoint path (sel : list (nat * nat)) (u : nat) (vs : list nat) (w : nat)
    : Prop :=
  match vs with
  | [] => (u, w) ∈ sel
  | v :: vs' => (u, v) ∈ sel ∧ path sel v vs' w
  end.

(** A simple cycle through the listed nodes, in order, back to the first. *)
Definition simple_cycle (sel : list (nat * nat)) (c : list nat) : Prop :=
  match c with
  | [] => False
  | v :: vs => NoDup c ∧ path sel v vs v
  end.

(** Modelled from the spec: the meaning of the circuit constraint, which
    lives in the solver and not in the sample.  The selected arcs give every
    node one outgoing and one incoming arc, and they form either (a) a
    single simple cycle visiting exactly the nodes that do not use their
    self-loop, or (b) nothing but self-loops. *)
Definition circuit_sat (a : assignment) (arcs : list ArcT) : Prop :=
  let sel := selected a arcs in
  (∀ v, v ∈ nodes arcs → out_degree sel v = 1 ∧ in_degree sel v = 1) ∧
  ((∃ c, simple_cycle sel c ∧
         ∀ v, v ∈ nodes arcs → (v ∈ c ↔ ¬ uses_self_loop sel v)) ∨
   (∀ v, v ∈ nodes arcs → uses_self_loop sel v)).

(** Modelled from the spec: the meaning of the other modelling primitives
    (a linear constraint, an implication between literals). *)
Definition body_sat (a : assignment) (b : ConstraintBody) : Prop :=
  match b with
  | Linear ct => holds a ct = true
  | Implication x y => lit_true a x = true → lit_true a y = true
  | Circuit arcs => circuit_sat a arcs
  end.

(** Modelled from the spec: a gated constraint ("only enforce if literal L
    is true") binds only when all its enforcement literals are true. *)
Definition constraint_sat (a : assignment) (c : Constraint) : Prop :=
  Forall (fun l => lit_true a l = true) (enforcement_literal c) →
  body_sat a (body c).

(** [a] is a solution of [m]: it satisfies every posted constraint. *)
Definition solution (a : assignment) (m : CpModel) : Prop :=
  Forall (constraint_sat a) (constraints m).

(** ** What a call leaves behind in the model *)

(** The constraints posted between [m] and [m']. *)
Definition posted (m m' : CpModel) : list Constraint :=
  drop (length (constraints m)) (constraints m').

(** The Boolean variables created between [m] and [m']. *)
Definition created (m m' : CpModel) : list string :=
  drop (length (bool_vars m)) (bool_vars m').

(** The arcs of the circuit constraints among [cs]. *)
Definition circuit_arcs (cs : list Constraint) : list ArcT :=
  flat_map (fun c => match body c with Circuit arcs => arcs | _ => [] end) cs.

(** A constraint is conditioned on [l] when [l] gates it, or when it is an
    implication with premise [l]. *)
Definition conditioned_on (l : lit) (c : Constraint) : bool :=
  bool_decide (l ∈ enforcement_literal c) ||
  match body c with
  | Implication x _ => bool_decide (x = l)
  | _ => false
  end.

Definition enforced (l : lit) (ct : BoundedLinearExpression) : Constraint :=
  mkConstraint [l] (Linear ct).

#[global] Instance lit_inhabited : Inhabited lit := populate (Pos 0).

(** The variables of a linear expression. *)
Fixpoint expr_vars (e : LinearExpr) : list ivar :=
  match e with
  | EVar v => [v]
  | EConst _ => []
  | EAdd e1 e2 => expr_vars e1 ++ expr_vars e2
  end.

(** The integer variables a constraint mentions. *)
Definition constraint_ivars (c : Constraint) : list ivar :=
  match body c with
  | Linear (Eq e1 e2) | Linear (Ge e1 e2) => expr_vars e1 ++ expr_vars e2
  | Implication _ _ | Circuit _ => []
  end.

(** The literals a constraint mentions: its gates, the two sides of an
    implication, the literals on the arcs of a circuit. *)
Definition constraint_lits (c : Constraint) : list lit :=
  enforcement_literal c ++
  match body c with
  | Linear _ => []
  | Implication x y => [x; y]
  | Circuit arcs => arcs.*2
  end.

(** The tasks among the first [n] whose presence literal is true, and the
    values of their rank variables. *)
Definition present_tasks (a : assignment) (presences : list lit) (n : nat)
    : list nat :=
  filter (λ i, lit_true a (presences !!! i) = true) (seq 0 n).

Definition rank_values (a : assignment) (ranks : list ivar) (ts : list nat)
    : list Z :=
  (λ i, ival a (ranks !!! i)) <$> ts.

(** ** The encoding in closed form

    For [n] tasks and a model that holds [base] Boolean variables, task [i]
    creates [n + 1] literals: its "first" literal, its "last" literal and
    one successor literal for every other task. *)
Section ClosedForm.
Variables (starts : list ivar) (durations : list Z)
          (presences : list lit) (ranks : list ivar).
Variables (n base : nat).

Definition start_var (i : nat) : bvar := base + i * (n + 1).
Definition end_var (i : nat) : bvar := base + i * (n + 1) + 1.
Definition succ_var (i j : nat) : bvar :=
  base + i * (n + 1) + 2 + (if decide (j < i) then j else j - 1).
Definition empty_var : bvar := base + n * (n + 1).

Definition pair_names (i j : nat) : list string :=
  if decide (i = j) then []
  else ["arc_" +:+ pretty i +:+ "_to_" +:+ pretty j].

Definition pair_arc (i j : nat) : ArcT :=
  if decide (i = j) then (i + 1, i + 1, Not (presences !!! i))
  else (i + 1, j + 1, Pos (succ_var i j)).

Definition pair_cts (i j : nat) : list Constraint :=
  if decide (i = j) then
    [enforced (Not (presences !!! i))
              (Eq (EVar (ranks !!! i)) (EConst (-1)))]
  else
    [enforced (Pos (succ_var i j))
              (Eq (EVar (ranks !!! j))
                  (EAdd (EVar (ranks !!! i)) (EConst 1)));
     enforced (Pos (succ_var i j))
              (Ge (EVar (starts !!! j))
                  (EAdd (EVar (starts !!! i)) (EConst (durations !!! i))))].

Definition task_names (i : nat) : list string :=
  ["start_" +:+ pretty i; "end_" +:+ pretty i]
    ++ flat_map (pair_names i) (seq 0 n).

Definition task_arcs (i : nat) : list ArcT :=
  [(0, i + 1, Pos (start_var i)); (i + 1, 0, Pos (end_var i))]
    ++ map (pair_arc i) (seq 0 n).

Definition task_cts (i : nat) : list Constraint :=
  [enforced (Pos (start_var i)) (Eq (EVar (ranks !!! i)) (EConst 0));
   enforced (Pos (start_var i)) (Eq (EVar (starts !!! i)) (EConst 0))]
    ++ flat_map (pair_cts i) (seq 0 n).

Definition all_names : list string :=
  flat_map task_names (seq 0 n) ++ ["empty"].

Definition all_arcs : list ArcT :=
  flat_map task_arcs (seq 0 n) ++ [(0, 0, Pos empty_var)].

Definition empty_cts : list Constraint :=
  map (fun i => mkConstraint [] (Implication (Pos empty_var)
                                             (Not (presences !!! i))))
      (seq 0 n).

Definition all_cts : list Constraint :=
  flat_map task_cts (seq 0 n) ++ empty_cts
    ++ [mkConstraint [] (Circuit all_arcs)].
(** The literal on the arc from node [u] to node [v]. *)
Definition arc_lit (u v : nat) : lit :=
  match u, v with
  | 0, 0 => Pos empty_var
  | 0, S i => Pos (start_var i)
  | S i, 0 => Pos (end_var i)
  | S i, S j => (pair_arc i j).2
  end.
End ClosedForm.

(** The sequences are long enough for every subscript the encoder
    evaluates: [ranks] and [presences] are read at every task index,
    [durations] only when there is a pair of distinct tasks. *)
Definition subscripts_ok (starts : list ivar) (durations : list Z)
    (presences : list lit) (ranks : list ivar) : bool :=
  let n := length starts in
  bool_decide (n ≤ length ranks) && bool_decide (n ≤ length presences)
  && bool_decide (2 ≤ n → n ≤ length durations).

(** ** Properties of computations *)

(** Every operation only ever adds Boolean variables, also on the way to an
    exception. *)
Definition grows {A} (c : M A) : Prop :=
  ∀ m, match c m with
       | Ok _ m' | Raise _ m' => length (bool_vars m) ≤ length (bool_vars m')
       end.

(** A computation that creates at least one Boolean variable whatever its
    outcome. *)
Definition grows_strictly {A} (c : M A) : Prop :=
  ∀ m, match c m with
       | Ok _ m' | Raise _ m' => length (bool_vars m) < length (bool_vars m')
       end.

(** The contract of the specification: equal lengths and positive
    durations. *)
Definition contract_ok (starts : list ivar) (durations : list Z)
    (presences : list lit) (ranks : list ivar) : Prop :=
  length durations = length starts ∧
  length presences = length starts ∧
  length ranks = length starts ∧
  Forall (λ d, 0 < d)%Z durations.

(** Failing fast: an exception, raised before any constraint is posted. *)
Definition fails_fast {A} (c : M A) (m : CpModel) : Prop :=
  ∃ e m', c m = Raise e m' ∧ constraints m' = constraints m.

(** The durations end up as constants of linear constraints, which the
    solver's Python layer, not part of the sample, keeps as 64-bit signed
    integers.  What is stated about ill-formed durations is stated for
    constants of a magnitude below [2^63]. *)
Definition representable (d : Z) : Prop := (Z.abs d < 2 ^ 63)%Z.

(** ** A worked instance

    Three tasks of durations 1, 2 and 3 on a model that holds their three
    presence variables.  In the assignment below tasks 0 and 1 are present,
    in that order, and task 2 is absent. *)

Definition sample_model : CpModel :=
  mkModel ["presence[0]"; "presence[1]"; "presence[2]"] [].
Definition sample_starts : list ivar := [0; 1; 2].
Definition sample_durations : list Z := [1; 2; 3]%Z.
Definition sample_presences : list lit := [Pos 0; Pos 1; Pos 2].
Definition sample_ranks : list ivar := [3; 4; 5].

Definition model_of {A} (r : result A) : CpModel :=
  match r with
  | Ok _ m | Raise _ m => m
  end.

Definition sample_encoded : CpModel :=
  Eval vm_compute in
    model_of (rank_tasks_with_circuit sample_starts sample_durations
                sample_presences sample_ranks sample_model).

(** Variables 3, 5 and 8 are [start_0], [arc_0_to_1] and [end_1]. *)
Definition sample_assignment : assignment :=
  mkAssignment
    (λ v, match v with
          | 1 => 1%Z | 4 => 1%Z | 5 => (-1)%Z | _ => 0%Z
          end)
    (λ v, bool_decide (v ∈ [0; 1; 3; 5; 8])).

(** A computation that leaves the first [k] constraints of the model and
    all its Boolean variables in place, whatever its outcome. *)
Definition keeps {A} (k : nat) (c : M A) : Prop :=
  ∀ m, k ≤ length (constraints m) →
       match c m with
       | Ok _ m' | Raise _ m' =>
           take k (constraints m') = take k (constraints m) ∧
           k ≤ length (constraints m') ∧
           bool_vars m `prefix_of` bool_vars m'
       end.

(** The worked instance encoded a second time, on top of the first
    encoding, and an assignment that takes the same route in both. *)
Definition sample_twice : CpModel :=
  Eval vm_compute in
    model_of (rank_tasks_with_circuit sample_starts sample_durations
                sample_presences sample_ranks sample_encoded).

Definition sample_twice_assignment : assignment :=
  mkAssignment
    (ival sample_assignment)
    (λ v, bool_decide (v ∈ [0; 1; 3; 5; 8; 16; 18; 21])).

(** ** Durations *)

(** The total duration of the tasks [ts]. *)
Definition total_duration (durations : list Z) (ts : list nat) : Z :=
  foldr (λ i s, (durations !!! i + s)%Z) 0%Z ts.

(** ** Rankings *)

(** The valuation [a] ranks the present tasks in the order [ts]: [ts]
    lists the present tasks once each, the rank of a task is its position
    in [ts] and [-1] when it is absent, the first task of [ts] starts at
    zero and every task starts after the one before it has ended. *)
Definition ranked (starts : list ivar) (durations : list Z)
    (presences : list lit) (ranks : list ivar)
    (a : assignment) (ts : list nat) : Prop :=
  NoDup ts ∧
  (∀ i, i ∈ ts ↔ i < length starts ∧ lit_true a (presences !!! i) = true) ∧
  (∀ k i, ts !! k = Some i → ival a (ranks !!! i) = Z.of_nat k) ∧
  (∀ i, i < length starts → lit_true a (presences !!! i) = false →
        ival a (ranks !!! i) = (-1)%Z) ∧
  (∀ i, ts !! 0 = Some i → ival a (starts !!! i) = 0%Z) ∧
  (∀ k i j, ts !! k = Some i → ts !! S k = Some j →
            (ival a (starts !!! i) + durations !!! i
             ≤ ival a (starts !!! j))%Z).

(** The arcs of the route that leaves node [u], visits the nodes of the
    tasks [ts] in order and ends at the depot.  From the depot and with no
    task it is the depot self-loop. *)
Fixpoint route (u : nat) (ts : list nat) : list (nat * nat) :=
  match ts with
  | [] => [(u, 0)]
  | i :: ts' => (u, S i) :: route (S i) ts'
  end.

(** The valuation [a] extended to the literals the encoder creates: those
    on the arcs of the route through [ts] are true, the others false. *)
Definition route_assignment (presences : list lit) (n base : nat)
    (a : assignment) (ts : list nat) : assignment :=
  mkAssignment
    (ival a)
    (λ v, if decide (v < base) then bval a v
          else bool_decide
                 (v ∈ (λ e : nat * nat,
                         lit_var (arc_lit presences n base e.1 e.2))
                      <$> route 0 ts)).

(** ** Names *)

(** The name the encoder gives to the literal it creates for the arc from
    node [u] to node [w]. *)
Definition arc_name (u w : nat) : string :=
  match u, w with
  | 0, 0 => "empty"
  | 0, S i => "start_" +:+ pretty i
  | S i, 0 => "end_" +:+ pretty i
  | S i, S j => "arc_" +:+ pretty i +:+ "_to_" +:+ pretty j
  end.

(** * Proofs *)

(** ** Running the encoder: the closed form is what the code computes *)

Lemma bind_Ok {A B} (c : M A) (k : A → M B) m a m' :
  c m = Ok a m' → (c ≫= k) m = k a m'.
Proof. intros H. unfold mbind, M_bind, bind. by rewrite H. Qed.

Lemma bind_Raise {A B} (c : M A) (k : A → M B) m e m' :
  c m = Raise e m' → (c ≫= k) m = Raise e m'.
Proof. intros H. unfold mbind, M_bind, bind. by rewrite H. Qed.

Lemma bind_Ok_inv {A B} (c : M A) (k : A → M B) m b m' :
  (c ≫= k) m = Ok b m' → ∃ a m1, c m = Ok a m1 ∧ k a m1 = Ok b m'.
Proof.
  unfold mbind, M_bind, bind. destruct (c m) as [a m1|e m1]; [|done].
  intros H. by exists a, m1.
Qed.

Lemma index_Ok {A} `{Inhabited A} (xs : list A) i m :
  i < length xs → index xs i m = Ok (xs !!! i) m.
Proof.
  intros Hi. unfold index. by rewrite (list_lookup_lookup_total_lt xs i Hi).
Qed.

Lemma index_Ok_inv {A} (xs : list A) i m x m' :
  index xs i m = Ok x m' → i < length xs ∧ m' = m.
Proof.
  unfold index. destruct (xs !! i) eqn:E; [|done].
  intros [= _ <-]. split; [by eapply lookup_lt_Some | done].
Qed.

(** Posting a constraint and gating it right away leaves one gated
    constraint at the end of the model. *)
Lemma NewBoolVar_Ok name m :
  NewBoolVar name m =
  Ok (Pos (length (bool_vars m)))
     (mkModel (bool_vars m ++ [name]) (constraints m)).
Proof. done. Qed.

Lemma Add_Ok ct m :
  Add ct m =
  Ok (length (constraints m))
     (mkModel (bool_vars m) (constraints m ++ [mkConstraint [] (Linear ct)])).
Proof. done. Qed.

(** Gating the constraint that was posted last. *)
Lemma OnlyEnforceIf_last l bv cs ct :
  OnlyEnforceIf (length cs) l (mkModel bv (cs ++ [mkConstraint [] (Linear ct)]))
  = Ok tt (mkModel bv (cs ++ [enforced l ct])).
Proof.
  unfold OnlyEnforceIf. cbn. do 2 f_equal.
  rewrite alter_app_r_alt by done. by rewrite Nat.sub_diag.
Qed.

(** One symbolic step of the encoder. *)
Ltac step :=
  first
    [ erewrite bind_Ok by (apply index_Ok; lia)
    | erewrite bind_Ok by apply NewBoolVar_Ok
    | erewrite bind_Ok by apply Add_Ok
    | erewrite bind_Ok by apply OnlyEnforceIf_last ]; cbn [bool_vars constraints].

Section Run.
Variables (starts : list ivar) (durations : list Z)
          (presences : list lit) (ranks : list ivar).
Variable base : nat.
Let n := length starts.
Hypothesis Hranks : n ≤ length ranks.
Hypothesis Hpresences : n ≤ length presences.
Hypothesis Hdurations : 2 ≤ n → n ≤ length durations.

Lemma rank_pair_run i j arcs m :
  i < n → j < n →
  length (bool_vars m)
    = base + i * (n + 1) + 2 + (if decide (j ≤ i) then j else j - 1) →
  rank_pair starts durations presences ranks i j arcs m =
  Ok (arcs ++ [pair_arc presences n base i j])
     (mkModel (bool_vars m ++ pair_names i j)
              (constraints m
                 ++ pair_cts starts durations presences ranks n base i j)).
Proof.
  intros Hi Hj Hlen. unfold rank_pair, pair_arc, pair_names, pair_cts.
  destruct (decide (i = j)) as [->|Hij].
  - repeat step. by rewrite app_nil_r.
  - repeat step. rewrite <- app_assoc. unfold ret, succ_var.
    replace (length (bool_vars m))
      with (base + i * (n + 1) + 2 + (if decide (j < i) then j else j - 1));
      [done|].
    rewrite Hlen. repeat case_decide; lia.
Qed.

Lemma pair_names_length i j :
  length (pair_names i j) = if decide (i = j) then 0 else 1.
Proof. unfold pair_names. by case_decide. Qed.

Lemma rank_pairs_run i len : ∀ j arcs m,
  i < n → j + len ≤ n →
  length (bool_vars m)
    = base + i * (n + 1) + 2 + (if decide (j ≤ i) then j else j - 1) →
  for_each (seq j len) (rank_pair starts durations presences ranks i) arcs m
  = Ok (arcs ++ map (pair_arc presences n base i) (seq j len))
       (mkModel (bool_vars m ++ flat_map (pair_names i) (seq j len))
                (constraints m
                   ++ flat_map
                        (pair_cts starts durations presences ranks n base i)
                        (seq j len))).
Proof.
  induction len as [|len IH]; intros j arcs m Hi Hj Hlen; cbn [seq for_each].
  - cbn. rewrite !app_nil_r. by destruct m.
  - erewrite bind_Ok by (apply rank_pair_run; [done | lia | done]).
    rewrite IH; [| done | lia |].
    + cbn [map flat_map bool_vars constraints].
      by rewrite <- !app_assoc.
    + cbn [bool_vars]. rewrite length_app, pair_names_length, Hlen.
      repeat case_decide; lia.
Qed.

Lemma pair_names_total i len : ∀ j,
  length (flat_map (pair_names i) (seq j len))
  = len - (if decide (j ≤ i < j + len) then 1 else 0).
Proof.
  induction len as [|len IH]; intros j; cbn [seq flat_map].
  - by case_decide.
  - rewrite length_app, IH, pair_names_length. repeat case_decide; lia.
Qed.

Lemma task_names_length i : i < n → length (task_names n i) = n + 1.
Proof.
  intros Hi. unfold task_names. rewrite length_app, pair_names_total. cbn.
  case_decide; lia.
Qed.

Lemma rank_task_run i arcs m :
  i < n →
  length (bool_vars m) = start_var n base i →
  rank_task starts durations presences ranks (seq 0 n) i arcs m =
  Ok (arcs ++ task_arcs presences n base i)
     (mkModel (bool_vars m ++ task_names n i)
              (constraints m
                 ++ task_cts starts durations presences ranks n base i)).
Proof.
  intros Hi Hlen. unfold rank_task, start_var in *.
  repeat step. rewrite rank_pairs_run; [| done | lia |].
  - cbn [bool_vars constraints]. unfold task_arcs, task_names, task_cts.
    unfold start_var, end_var. rewrite !length_app, Hlen. cbn [length].
    by rewrite <- !app_assoc.
  - cbn [bool_vars]. rewrite !length_app, Hlen. cbn. case_decide; lia.
Qed.

Lemma rank_all_tasks_run len : ∀ i arcs m,
  i + len ≤ n →
  length (bool_vars m) = start_var n base i →
  for_each (seq i len)
    (rank_task starts durations presences ranks (seq 0 n)) arcs m
  = Ok (arcs ++ flat_map (task_arcs presences n base) (seq i len))
       (mkModel (bool_vars m ++ flat_map (task_names n) (seq i len))
                (constraints m
                   ++ flat_map
                        (task_cts starts durations presences ranks n base)
                        (seq i len))).
Proof.
  induction len as [|len IH]; intros i arcs m Hi Hlen; cbn [seq for_each].
  - cbn. rewrite !app_nil_r. by destruct m.
  - erewrite bind_Ok by (apply rank_task_run; [lia | done]).
    rewrite IH; [| lia |].
    + cbn [map flat_map bool_vars constraints].
      by rewrite <- !app_assoc.
    + cbn [bool_vars]. rewrite length_app, task_names_length, Hlen by lia.
      unfold start_var. lia.
Qed.

Lemma task_names_total len : ∀ i,
  i + len ≤ n →
  length (flat_map (task_names n) (seq i len)) = len * (n + 1).
Proof.
  induction len as [|len IH]; intros i Hi; cbn [seq flat_map]; [done|].
  rewrite length_app, IH, task_names_length by lia. lia.
Qed.

Lemma empty_implications_run empty len : ∀ i m,
  i + len ≤ n →
  for_each (seq i len)
    (λ i (_ : unit), p ← index presences i; AddImplication empty (Not p))
    tt m
  = Ok tt
      (mkModel (bool_vars m)
         (constraints m
            ++ map (λ i, mkConstraint []
                           (Implication empty (Not (presences !!! i))))
                   (seq i len))).
Proof.
  induction len as [|len IH]; intros i m Hi; cbn [seq for_each].
  - cbn. rewrite app_nil_r. by destruct m.
  - erewrite bind_Ok;
      [| erewrite bind_Ok by (apply index_Ok; lia); reflexivity].
    rewrite IH by lia. cbn [map bool_vars constraints].
    by rewrite <- app_assoc.
Qed.

(** The encoder runs to completion and leaves exactly the closed form
    behind. *)
Lemma rank_tasks_with_circuit_run m :
  base = length (bool_vars m) →
  rank_tasks_with_circuit starts durations presences ranks m =
  Ok tt (mkModel (bool_vars m ++ all_names n)
                 (constraints m
                    ++ all_cts starts durations presences ranks n base)).
Proof.
  intros Hbase. unfold rank_tasks_with_circuit. fold n.
  erewrite bind_Ok by
    (apply rank_all_tasks_run; [lia | unfold start_var; lia]).
  step. erewrite bind_Ok by (apply empty_implications_run; lia).
  unfold AddCircuit, all_names, all_cts, all_arcs, empty_cts, empty_var.
  cbn [bool_vars constraints app].
  rewrite length_app, task_names_total, <- Hbase by lia.
  by rewrite <- !app_assoc.
Qed.
End Run.

(** ** When the encoder raises *)

Lemma for_each_Ok_inv {A S} (body : A → S → M S) xs : ∀ s m s' m',
  for_each xs body s m = Ok s' m' →
  ∀ x, x ∈ xs → ∃ s1 m1 s2 m2, body x s1 m1 = Ok s2 m2.
Proof.
  induction xs as [|y xs IH]; intros s m s' m' Hrun x Hx.
  - by apply elem_of_nil in Hx.
  - cbn [for_each] in Hrun.
    apply bind_Ok_inv in Hrun as (s1 & m1 & Hy & Hrest).
    apply elem_of_cons in Hx as [->|Hx]; [by eauto 6 | by eauto].
Qed.

(** Peel the binds of a successful run and collect the subscripts that
    must have been in range. *)
Ltac invert_run H :=
  repeat
    (let a := fresh "a" in
     let m := fresh "m" in
     let H1 := fresh "Hstep" in
     apply bind_Ok_inv in H as (a & m & H1 & H);
     try (apply index_Ok_inv in H1 as [H1 ->])).

Section Subscripts.
Variables (starts : list ivar) (durations : list Z)
          (presences : list lit) (ranks : list ivar).

Lemma rank_pair_Ok_inv i j arcs m arcs' m' :
  rank_pair starts durations presences ranks i j arcs m = Ok arcs' m' →
  if decide (i = j) then i < length presences
  else i < length durations.
Proof.
  unfold rank_pair. case_decide; intros Hrun; invert_run Hrun; done.
Qed.

Lemma rank_task_Ok_inv all_tasks i arcs m arcs' m' :
  rank_task starts durations presences ranks all_tasks i arcs m
    = Ok arcs' m' →
  i < length ranks ∧
  ∀ j, j ∈ all_tasks →
       if decide (i = j) then i < length presences
       else i < length durations.
Proof.
  unfold rank_task. intros Hrun. invert_run Hrun. split; [done|].
  intros j Hj.
  destruct (for_each_Ok_inv _ _ _ _ _ _ Hrun j Hj) as (?&?&?&?&Hpair).
  by eapply rank_pair_Ok_inv.
Qed.

Lemma rank_tasks_with_circuit_Ok_inv m u m' :
  rank_tasks_with_circuit starts durations presences ranks m = Ok u m' →
  subscripts_ok starts durations presences ranks = true.
Proof.
  unfold rank_tasks_with_circuit, subscripts_ok. intros Hrun.
  apply bind_Ok_inv in Hrun as (arcs & m1 & Hloop & _).
  assert (∀ i, i < length starts →
            i < length ranks ∧ i < length presences ∧
            (∀ j, j < length starts → j ≠ i → i < length durations))
    as Hall.
  { intros i Hi.
    assert (i ∈ seq 0 (length starts)) as Hin by (apply elem_of_seq; lia).
    destruct (for_each_Ok_inv _ _ _ _ _ _ Hloop i Hin) as (?&?&?&?&Htask).
    apply rank_task_Ok_inv in Htask as [Hr Hpairs]. split; [done|]. split.
    - specialize (Hpairs i Hin). by rewrite decide_True in Hpairs.
    - intros j Hj Hne.
      assert (j ∈ seq 0 (length starts)) as Hjn by (apply elem_of_seq; lia).
      specialize (Hpairs j Hjn). by rewrite decide_False in Hpairs. }
  rewrite !andb_true_iff, !bool_decide_eq_true.
  destruct (length starts) as [|k] eqn:Ek; [repeat split; lia|].
  destruct (Hall k) as (Hr & Hp & Hd); [lia|].
  repeat split; [lia | lia |]. intros Hk.
  specialize (Hd 0). lia.
Qed.
End Subscripts.

Lemma grows_bind {A B} (c : M A) (k : A → M B) :
  grows c → (∀ a, grows (k a)) → grows (c ≫= k).
Proof.
  intros Hc Hk m. unfold mbind, M_bind, bind. specialize (Hc m).
  destruct (c m) as [a m1|e m1]; [|done].
  specialize (Hk a m1). destruct (k a m1); lia.
Qed.

Lemma grows_ret {A} (a : A) : grows (ret a).
Proof. intros m. by cbn. Qed.

Lemma grows_index {A} (xs : list A) i : grows (index xs i).
Proof. intros m. unfold index. by destruct (xs !! i); cbn. Qed.

Lemma grows_NewBoolVar name : grows (NewBoolVar name).
Proof. intros m. cbn. rewrite length_app. lia. Qed.

Lemma grows_Add ct : grows (Add ct).
Proof. intros m. by cbn. Qed.

Lemma grows_OnlyEnforceIf c l : grows (OnlyEnforceIf c l).
Proof. intros m. by cbn. Qed.

Lemma grows_AddImplication x y : grows (AddImplication x y).
Proof. intros m. by cbn. Qed.

Lemma grows_AddCircuit arcs : grows (AddCircuit arcs).
Proof. intros m. by cbn. Qed.

Lemma grows_for_each {A S} (body : A → S → M S) xs :
  (∀ x s, grows (body x s)) → ∀ s, grows (for_each xs body s).
Proof.
  intros Hbody. induction xs as [|x xs IH]; intros s; cbn [for_each].
  - apply grows_ret.
  - apply grows_bind; [apply Hbody | apply IH].
Qed.

Create HintDb grows.
#[local] Hint Resolve grows_ret grows_index grows_NewBoolVar grows_Add
  grows_OnlyEnforceIf grows_AddImplication grows_AddCircuit : grows.

Ltac solve_grows :=
  repeat first
    [ apply grows_bind; [| intros ?]
    | apply grows_for_each; intros ? ?
    | case_decide
    | solve [auto with grows] ].

Lemma grows_rank_pair starts durations presences ranks i j arcs :
  grows (rank_pair starts durations presences ranks i j arcs).
Proof. unfold rank_pair. solve_grows. Qed.

Lemma grows_rank_task starts durations presences ranks all_tasks i arcs :
  grows (rank_task starts durations presences ranks all_tasks i arcs).
Proof.
  unfold rank_task. solve_grows. apply grows_rank_pair.
Qed.

Lemma grows_strictly_bind {A B} (c : M A) (k : A → M B) :
  grows_strictly c → (∀ a, grows (k a)) → grows_strictly (c ≫= k).
Proof.
  intros Hc Hk m. unfold mbind, M_bind, bind. specialize (Hc m).
  destruct (c m) as [a m1|e m1]; [|done].
  specialize (Hk a m1). destruct (k a m1); lia.
Qed.

Lemma grows_strictly_NewBoolVar name : grows_strictly (NewBoolVar name).
Proof. intros m. cbn. rewrite length_app. cbn. lia. Qed.

Lemma grows_strictly_rank_task starts durations presences ranks all_tasks
    i arcs :
  grows_strictly (rank_task starts durations presences ranks all_tasks i arcs).
Proof.
  unfold rank_task. apply grows_strictly_bind.
  - apply grows_strictly_NewBoolVar.
  - intros ?. solve_grows. apply grows_rank_pair.
Qed.

Lemma grows_strictly_rank_tasks_with_circuit starts durations presences ranks :
  0 < length starts →
  grows_strictly (rank_tasks_with_circuit starts durations presences ranks).
Proof.
  intros Hn. unfold rank_tasks_with_circuit.
  destruct (length starts) as [|k]; [lia|]. cbn [seq for_each].
  apply grows_strictly_bind; [apply grows_strictly_bind|].
  - apply grows_strictly_rank_task.
  - intros ?. apply grows_for_each. intros ? ?. apply grows_rank_task.
  - intros ?. solve_grows.
Qed.

(** The operations leave what is already in the model alone. *)

Lemma keeps_ret {A} k (a : A) : keeps k (ret a).
Proof. intros m Hk. by cbn. Qed.

Lemma keeps_bind {A B} k (c : M A) (f : A → M B) :
  keeps k c → (∀ a, keeps k (f a)) → keeps k (c ≫= f).
Proof.
  intros Hc Hf m Hk. unfold mbind, M_bind, bind. specialize (Hc m Hk).
  destruct (c m) as [a m1|e m1]; [|done].
  destruct Hc as (Htake & Hlen & Hpre). specialize (Hf a m1 Hlen).
  destruct (f a m1) as [b m2|e m2];
    (destruct Hf as (Htake' & Hlen' & Hpre');
     split; [congruence | split; [done | by etrans]]).
Qed.

Lemma keeps_index {A} k (xs : list A) i : keeps k (index xs i).
Proof. intros m Hk. unfold index. by destruct (xs !! i); cbn. Qed.

Lemma keeps_NewBoolVar k name : keeps k (NewBoolVar name).
Proof.
  intros m Hk. cbn. split; [done|]. split; [done|]. by apply prefix_app_r.
Qed.

(** A handle returned by [Add] points past everything that was in the
    model before. *)
Lemma keeps_Add_bind {B} k ct (f : nat → M B) :
  (∀ c, k ≤ c → keeps k (f c)) → keeps k (Add ct ≫= f).
Proof.
  intros Hf m Hk. unfold mbind, M_bind, bind. cbn.
  assert (k ≤ length (constraints m ++ [mkConstraint [] (Linear ct)])) as Hk'
    by (rewrite length_app; lia).
  specialize (Hf (length (constraints m)) Hk
                 (mkModel (bool_vars m)
                    (constraints m ++ [mkConstraint [] (Linear ct)])) Hk').
  cbn in Hf. rewrite take_app_le in Hf by done.
  by destruct (f (length (constraints m))).
Qed.

Lemma keeps_OnlyEnforceIf k c l : k ≤ c → keeps k (OnlyEnforceIf c l).
Proof.
  intros Hc m Hk. cbn. split; [by apply take_alter_ge|].
  split; [by rewrite length_alter | done].
Qed.

Lemma keeps_AddImplication k x y : keeps k (AddImplication x y).
Proof.
  intros m Hk. cbn. split; [by rewrite take_app_le|].
  split; [rewrite length_app; lia | done].
Qed.

Lemma keeps_AddCircuit k arcs : keeps k (AddCircuit arcs).
Proof.
  intros m Hk. cbn. split; [by rewrite take_app_le|].
  split; [rewrite length_app; lia | done].
Qed.

Lemma keeps_for_each {A S} k (body : A → S → M S) xs :
  (∀ x s, keeps k (body x s)) → ∀ s, keeps k (for_each xs body s).
Proof.
  intros Hbody. induction xs as [|x xs IH]; intros s; cbn [for_each].
  - apply keeps_ret.
  - apply keeps_bind; [apply Hbody | apply IH].
Qed.

Ltac solve_keeps :=
  repeat first
    [ apply keeps_Add_bind; intros ? ?
    | apply keeps_bind; [| intros ?]
    | apply keeps_for_each; intros ? ?
    | case_decide
    | apply keeps_ret
    | apply keeps_index
    | apply keeps_NewBoolVar
    | apply keeps_AddImplication
    | apply keeps_AddCircuit
    | by apply keeps_OnlyEnforceIf ].

Lemma keeps_rank_tasks_with_circuit k starts durations presences ranks :
  keeps k (rank_tasks_with_circuit starts durations presences ranks).
Proof.
  unfold rank_tasks_with_circuit, rank_task, rank_pair. solve_keeps.
Qed.

(** ** Observations on a finished run *)

Lemma posted_app m cs bv : posted m (mkModel bv (constraints m ++ cs)) = cs.
Proof. unfold posted. cbn. by rewrite drop_app_length. Qed.

Lemma created_app m names cs :
  created m (mkModel (bool_vars m ++ names) cs) = names.
Proof. unfold created. cbn. by rewrite drop_app_length. Qed.

(** A successful run, summarised: the lengths were sufficient and the model
    grew by the closed form. *)
Lemma rank_tasks_with_circuit_Ok starts durations presences ranks m u m' :
  rank_tasks_with_circuit starts durations presences ranks m = Ok u m' →
  let n := length starts in
  let base := length (bool_vars m) in
  subscripts_ok starts durations presences ranks = true ∧
  bool_vars m' = bool_vars m ++ all_names n ∧
  constraints m' =
    constraints m ++ all_cts starts durations presences ranks n base.
Proof.
  intros Hrun n base.
  pose proof (rank_tasks_with_circuit_Ok_inv _ _ _ _ _ _ _ Hrun) as Hok.
  split; [done|]. unfold subscripts_ok in Hok.
  rewrite !andb_true_iff, !bool_decide_eq_true in Hok.
  destruct Hok as [[Hr Hp] Hd].
  rewrite (rank_tasks_with_circuit_run starts durations presences ranks
             base Hr Hp Hd m eq_refl) in Hrun.
  by injection Hrun as _ <-.
Qed.

(** ** Solutions of the encoding *)

Lemma elem_of_flat_map {A B} (f : A → list B) (l : list A) (y : B) :
  y ∈ flat_map f l ↔ ∃ x, x ∈ l ∧ y ∈ f x.
Proof.
  rewrite list_elem_of_In, in_flat_map. setoid_rewrite list_elem_of_In.
  done.
Qed.

Lemma elem_of_selected a arcs u v :
  (u, v) ∈ selected a arcs ↔ ∃ l, (u, v, l) ∈ arcs ∧ lit_true a l = true.
Proof.
  unfold selected. rewrite list_elem_of_fmap. split.
  - intros ([[u' v'] l] & [= -> ->] & Hin).
    apply list_elem_of_filter in Hin as [Ht Hin]. by exists l.
  - intros (l & Hin & Ht). exists (u, v, l). split; [done|].
    by apply list_elem_of_filter.
Qed.

Lemma lit_true_Not a l : lit_true a (Not l) = negb (lit_true a l).
Proof. destruct l; cbn; [done|]. by rewrite negb_involutive. Qed.

(** Paths compose and split at any intermediate node. *)
Lemma path_app sel l1 : ∀ u x l2 w,
  path sel u (l1 ++ x :: l2) w ↔ path sel u l1 x ∧ path sel x l2 w.
Proof.
  induction l1 as [|y l1 IH]; intros u x l2 w; cbn; [done|].
  rewrite IH. tauto.
Qed.

(** A simple cycle through node [x] can be read starting from [x]. *)
Lemma simple_cycle_rotate sel c x :
  simple_cycle sel c → x ∈ c →
  ∃ l, path sel x l x ∧ NoDup (x :: l) ∧ x :: l ≡ₚ c.
Proof.
  destruct c as [|v vs]; [done|]. intros [Hnd Hpath] Hx.
  apply elem_of_cons in Hx as [->|Hx]; [by exists vs|].
  apply list_elem_of_split in Hx as (l1 & l2 & ->).
  apply path_app in Hpath as [Hvx Hxv].
  assert (x :: l2 ++ v :: l1 ≡ₚ v :: l1 ++ x :: l2) as Hperm.
  { rewrite (Permutation_app_comm l2 (v :: l1)).
    apply (Permutation_middle (v :: l1) l2 x). }
  exists (l2 ++ v :: l1). split; [by apply path_app|].
  split; [by rewrite Hperm | done].
Qed.

Section Solutions.
Variables (starts : list ivar) (durations : list Z)
          (presences : list lit) (ranks : list ivar).
Variables (n base : nat).
Variable a : assignment.

Let arcs := all_arcs presences n base.
Let cts := all_cts starts durations presences ranks n base.
Let sel := selected a arcs.
Let rank (i : nat) : Z := ival a (ranks !!! i).
Let present (i : nat) : bool := lit_true a (presences !!! i).

Hypothesis Hsol : Forall (constraint_sat a) cts.

Lemma elem_of_all_arcs t :
  t ∈ arcs ↔
  (∃ i, i < n ∧
        (t = (0, i + 1, Pos (start_var n base i)) ∨
         t = (i + 1, 0, Pos (end_var n base i)) ∨
         ∃ j, j < n ∧ t = pair_arc presences n base i j)) ∨
  t = (0, 0, Pos (empty_var n base)).
Proof.
  unfold arcs, all_arcs, task_arcs.
  rewrite elem_of_app, elem_of_flat_map, list_elem_of_singleton.
  apply or_iff_compat_r. split.
  - intros (i & Hi & Ht). apply elem_of_seq in Hi. exists i. split; [lia|].
    rewrite elem_of_app, !elem_of_cons, elem_of_nil, list_elem_of_fmap in Ht.
    destruct Ht as [[?|[?|[]]]|(j & ? & Hj)]; [by left | by right; left|].
    apply elem_of_seq in Hj. right; right. exists j. split; [lia | done].
  - intros (i & Hi & Ht). exists i. split; [apply elem_of_seq; lia|].
    rewrite elem_of_app, !elem_of_cons, elem_of_nil, list_elem_of_fmap.
    destruct Ht as [?|[?|(j & Hj & ?)]]; [by left; left | by left; right; left|].
    right. exists j. split; [done | apply elem_of_seq; lia].
Qed.

Lemma task_cts_posted i c :
  i < n →
  c ∈ task_cts starts durations presences ranks n base i → c ∈ cts.
Proof.
  intros Hi Hc. unfold cts, all_cts. rewrite elem_of_app, elem_of_flat_map.
  left. exists i. split; [apply elem_of_seq; lia | done].
Qed.

Lemma pair_cts_posted i j c :
  i < n → j < n →
  c ∈ pair_cts starts durations presences ranks n base i j → c ∈ cts.
Proof.
  intros Hi Hj Hc. apply (task_cts_posted i); [done|]. unfold task_cts.
  rewrite elem_of_app, elem_of_flat_map. right. exists j.
  split; [apply elem_of_seq; lia | done].
Qed.

(** A posted gated linear constraint whose literal is true holds. *)
Lemma enforced_holds l ct :
  enforced l ct ∈ cts → lit_true a l = true → holds a ct = true.
Proof.
  intros Hin Hl. pose proof (proj1 (Forall_forall _ _) Hsol _ Hin) as Hc.
  apply Hc. cbn. by repeat constructor.
Qed.

Lemma first_rank i :
  i < n → bval a (start_var n base i) = true → rank i = 0%Z.
Proof.
  intros Hi Hl.
  assert (holds a (Eq (EVar (ranks !!! i)) (EConst 0)) = true) as H.
  { apply (enforced_holds (Pos (start_var n base i))); [|done].
    apply (task_cts_posted i); [done|]. unfold task_cts.
    rewrite elem_of_app. left. apply elem_of_cons. by left. }
  cbn in H. by apply Z.eqb_eq in H.
Qed.

Lemma first_start i :
  i < n → bval a (start_var n base i) = true → ival a (starts !!! i) = 0%Z.
Proof.
  intros Hi Hl.
  assert (holds a (Eq (EVar (starts !!! i)) (EConst 0)) = true) as H.
  { apply (enforced_holds (Pos (start_var n base i))); [|done].
    apply (task_cts_posted i); [done|]. unfold task_cts.
    rewrite elem_of_app. left. rewrite !elem_of_cons. by right; left. }
  cbn in H. by apply Z.eqb_eq in H.
Qed.

Lemma successor_rank i j :
  i < n → j < n → i ≠ j → bval a (succ_var n base i j) = true →
  rank j = (rank i + 1)%Z.
Proof.
  intros Hi Hj Hij Hl.
  assert (holds a (Eq (EVar (ranks !!! j))
                      (EAdd (EVar (ranks !!! i)) (EConst 1))) = true) as H.
  { apply (enforced_holds (Pos (succ_var n base i j))); [|done].
    apply (pair_cts_posted i j); [done..|]. unfold pair_cts.
    rewrite decide_False by done. apply elem_of_cons. by left. }
  cbn in H. by apply Z.eqb_eq in H.
Qed.

Lemma successor_start i j :
  i < n → j < n → i ≠ j → bval a (succ_var n base i j) = true →
  (ival a (starts !!! i) + durations !!! i ≤ ival a (starts !!! j))%Z.
Proof.
  intros Hi Hj Hij Hl.
  assert (holds a (Ge (EVar (starts !!! j))
                      (EAdd (EVar (starts !!! i))
                            (EConst (durations !!! i)))) = true) as H.
  { apply (enforced_holds (Pos (succ_var n base i j))); [|done].
    apply (pair_cts_posted i j); [done..|]. unfold pair_cts.
    rewrite decide_False by done. rewrite !elem_of_cons. by right; left. }
  cbn in H. by apply Z.leb_le in H.
Qed.

Lemma absent_rank i : i < n → present i = false → rank i = (-1)%Z.
Proof.
  intros Hi Hl.
  assert (holds a (Eq (EVar (ranks !!! i)) (EConst (-1))) = true) as H.
  { apply (enforced_holds (Not (presences !!! i))).
    - apply (pair_cts_posted i i); [done..|]. unfold pair_cts.
      rewrite decide_True by done. apply elem_of_cons. by left.
    - rewrite lit_true_Not. fold (present i). by rewrite Hl. }
  cbn in H. by apply Z.eqb_eq in H.
Qed.

Lemma empty_absent i :
  i < n → bval a (empty_var n base) = true → present i = false.
Proof.
  intros Hi Hl.
  assert (mkConstraint [] (Implication (Pos (empty_var n base))
                                       (Not (presences !!! i))) ∈ cts) as Hin.
  { unfold cts, all_cts, empty_cts. rewrite !elem_of_app. right; left.
    apply list_elem_of_fmap. exists i. split; [done | apply elem_of_seq; lia]. }
  pose proof (proj1 (Forall_forall _ _) Hsol _ Hin) as Hc.
  specialize (Hc (Forall_nil_2 _) Hl). cbn in Hc.
  rewrite lit_true_Not in Hc. by apply negb_true_iff in Hc.
Qed.

(** What a selected arc can be. *)
Lemma selected_cases u v :
  (u, v) ∈ sel →
  (u = 0 ∧ v = 0 ∧ bval a (empty_var n base) = true) ∨
  (∃ i, i < n ∧ u = 0 ∧ v = i + 1 ∧ bval a (start_var n base i) = true) ∨
  (∃ i, i < n ∧ u = i + 1 ∧ v = 0) ∨
  (∃ i, i < n ∧ u = i + 1 ∧ v = i + 1 ∧ present i = false) ∨
  (∃ i j, i < n ∧ j < n ∧ i ≠ j ∧ u = i + 1 ∧ v = j + 1 ∧
          bval a (succ_var n base i j) = true).
Proof.
  intros Hsel. apply elem_of_selected in Hsel as (l & Hin & Hl).
  apply elem_of_all_arcs in Hin
    as [(i & Hi & [Ht|[Ht|(j & Hj & Ht)]])|Ht].
  - injection Ht as -> -> ->. right; left. by exists i.
  - injection Ht as -> -> ->. right; right; left. by exists i.
  - unfold pair_arc in Ht. case_decide as Hij.
    + injection Ht as -> -> ->. right; right; right; left. exists i.
      rewrite lit_true_Not in Hl. apply negb_true_iff in Hl. done.
    + injection Ht as -> -> ->. do 4 right. by exists i, j.
  - injection Ht as -> -> ->. by left.
Qed.

Lemma selected_bound u v : (u, v) ∈ sel → u ≤ n ∧ v ≤ n.
Proof.
  intros H. apply selected_cases in H.
  destruct H as [?|[(?&?)|[(?&?)|[(?&?)|(?&?&?)]]]]; lia.
Qed.

Lemma selected_first v :
  (0, v) ∈ sel → v ≠ 0 → ∃ i, i < n ∧ v = i + 1 ∧ rank i = 0%Z.
Proof.
  intros H Hv. apply selected_cases in H.
  destruct H as [?|[(i&?&?&?&?)|[(?&?)|[(?&?)|(?&?&?)]]]]; try lia.
  exists i. split; [done|]. split; [done|]. by apply first_rank.
Qed.

Lemma selected_successor u v :
  (u, v) ∈ sel → u ≠ 0 → v ≠ 0 → u ≠ v →
  ∃ i j, i < n ∧ j < n ∧ u = i + 1 ∧ v = j + 1 ∧ rank j = (rank i + 1)%Z.
Proof.
  intros H Hu Hv Huv. apply selected_cases in H.
  destruct H as [?|[(?&?)|[(?&?)|[(?&?)|(i&j&?&?&?&?&?&?)]]]]; try lia.
  exists i, j. repeat (split; [done|]). by apply successor_rank.
Qed.

Lemma selected_depot_loop i : (0, 0) ∈ sel → i < n → present i = false.
Proof.
  intros H Hi. apply selected_cases in H.
  destruct H as [(?&?&?)|[(?&?)|[(?&?)|[(?&?)|(?&?&?)]]]]; try lia.
  by apply empty_absent.
Qed.

(** The self-loop of node [i + 1] is selected exactly when task [i] is
    absent. *)
Lemma selected_self_loop i :
  i < n → uses_self_loop sel (i + 1) ↔ present i = false.
Proof.
  intros Hi. unfold uses_self_loop. split.
  - intros H. apply selected_cases in H.
    destruct H as [?|[(?&?)|[(?&?)|[(i'&?&?&?&?)|(?&?&?&?&?&?&?&?)]]]];
      try lia.
    by replace i with i' by lia.
  - intros Hp. apply elem_of_selected. exists (Not (presences !!! i)). split.
    + apply elem_of_all_arcs. left. exists i. split; [done|].
      right; right. exists i. split; [done|]. unfold pair_arc.
      by rewrite decide_True.
    + rewrite lit_true_Not. fold (present i). by rewrite Hp.
Qed.

Lemma depot_is_node : 0 ∈ nodes arcs.
Proof.
  unfold nodes. rewrite elem_of_remove_dups, elem_of_flat_map.
  exists (0, 0, Pos (empty_var n base)). split.
  - apply elem_of_all_arcs. by right.
  - cbn. apply elem_of_cons. by left.
Qed.

Lemma task_is_node i : i < n → i + 1 ∈ nodes arcs.
Proof.
  intros Hi. unfold nodes. rewrite elem_of_remove_dups, elem_of_flat_map.
  exists (0, i + 1, Pos (start_var n base i)). split.
  - apply elem_of_all_arcs. left. exists i. split; [done | by left].
  - cbn. rewrite !elem_of_cons. by right; left.
Qed.

(** Along a selected path between task nodes the ranks count up by one. *)
Lemma path_ranks l : ∀ u w i r,
  path sel u l w → NoDup (u :: l) → 0 ∉ u :: l →
  u = i + 1 → rank i = r →
  ∀ k x, l !! k = Some x → rank (x - 1) = (r + 1 + Z.of_nat k)%Z.
Proof.
  induction l as [|y l IH]; intros u w i r Hpath Hnd H0 -> Hr k x Hk;
    [done|].
  destruct Hpath as [Hy Hpath].
  apply NoDup_cons in Hnd as [Hu Hnd].
  apply not_elem_of_cons in H0 as [_ H0]. apply not_elem_of_cons in Hu as [Hu _].
  pose proof H0 as Hy0. apply not_elem_of_cons in Hy0 as [Hy0 _].
  destruct (selected_successor _ _ Hy) as (i' & j & Hi' & Hj & Ei & -> & Hrk);
    [lia | lia | done |].
  replace i' with i in * by lia.
  destruct k as [|k]; cbn in Hk.
  - injection Hk as <-. replace (j + 1 - 1) with j by lia. lia.
  - rewrite (IH (j + 1) w j (r + 1)%Z Hpath Hnd H0 eq_refl) with (k := k) (x := x);
      [lia | lia | done].
Qed.

(** The present tasks in the order the circuit visits them: task [k] of
    the list has rank [k]. *)
Lemma visit_order :
  circuit_sat a arcs →
  ∃ ts : list nat,
    NoDup ts ∧
    (∀ i, i ∈ ts ↔ i < n ∧ present i = true) ∧
    (∀ k i, ts !! k = Some i → rank i = Z.of_nat k).
Proof.
  intros [_ Hshape].
  assert (uses_self_loop sel 0 →
          ∃ ts : list nat,
            NoDup ts ∧ (∀ i, i ∈ ts ↔ i < n ∧ present i = true) ∧
            (∀ k i, ts !! k = Some i → rank i = Z.of_nat k)) as Hempty.
  { intros H0. exists []. split; [constructor|]. split; [|done].
    intros i. rewrite elem_of_nil. split; [done|]. intros [Hi Hp].
    by rewrite (selected_depot_loop i H0 Hi) in Hp. }
  destruct Hshape as [(c & Hc & Hon)|Hloops];
    [|by apply Hempty, Hloops, depot_is_node].
  destruct (decide (0 ∈ c)) as [H0|H0].
  2:{ apply Hempty. destruct (decide (uses_self_loop sel 0)); [done|].
      exfalso. apply H0. by apply (Hon 0 depot_is_node). }
  destruct (simple_cycle_rotate _ _ _ Hc H0) as (l & Hpath & Hnd & Hperm).
  assert (∀ x, x ∈ l → x ≠ 0 ∧ x ≤ n ∧ present (x - 1) = true) as Hl.
  { intros x Hx.
    assert (x ≠ 0) as Hx0.
    { intros ->. by apply NoDup_cons in Hnd as [? _]. }
    assert (x ∈ c) as Hxc by (rewrite <- Hperm; by apply elem_of_cons; right).
    assert (x ≤ n) as Hxn.
    { apply list_elem_of_split in Hx as (l1 & l2 & ->).
      apply path_app in Hpath as [_ Hout].
      destruct l2; cbn in Hout;
        [|destruct Hout as [Hout _]]; by apply selected_bound in Hout as [? _]. }
    split; [done|]. split; [done|].
    assert (x - 1 < n) as Hi by lia.
    destruct (present (x - 1)) eqn:Hp; [done|].
    apply selected_self_loop in Hp; [|done].
    replace (x - 1 + 1) with x in Hp by lia.
    assert (x ∈ nodes arcs) as Hnode.
    { replace x with (x - 1 + 1) by lia. by apply task_is_node. }
    by apply (Hon x Hnode) in Hxc. }
  exists (Nat.pred <$> l). split; [|split].
  - apply NoDup_fmap_2_strong; [|by apply NoDup_cons in Hnd as [_ ?]].
    intros x y Hx Hy. apply Hl in Hx, Hy. lia.
  - intros i. rewrite list_elem_of_fmap. split.
    + intros (x & -> & Hx). apply Hl in Hx as (? & ? & Hp).
      replace (x - 1) with (Nat.pred x) in Hp by lia. split; [lia | done].
    + intros [Hi Hp]. exists (i + 1). split; [lia|].
      assert (i + 1 ∈ c) as Hic.
      { apply (Hon _ (task_is_node i Hi)). intros Hloop.
        apply (selected_self_loop i Hi) in Hloop. congruence. }
      rewrite <- Hperm in Hic. apply elem_of_cons in Hic as [?|?]; [lia | done].
  - intros k i Hk. apply list_lookup_fmap_Some in Hk as (x & -> & Hk).
    destruct l as [|y l]; [done|]. destruct Hpath as [Hy Hpath].
    assert (y ∈ y :: l) as Hyl by (apply elem_of_cons; by left).
    destruct (selected_first _ Hy) as (j & Hj & -> & Hrj);
      [by apply Hl in Hyl as [? _]|].
    destruct k as [|k]; cbn in Hk.
    + injection Hk as <-. by replace (Nat.pred (j + 1)) with j by lia.
    + apply NoDup_cons in Hnd as [Hd0 Hnd].
      replace (Nat.pred x) with (x - 1) by lia.
      rewrite (path_ranks l (j + 1) 0 j 0%Z Hpath Hnd Hd0 eq_refl Hrj k x Hk).
      lia.
Qed.
End Solutions.

(** A solution of the model after a successful run satisfies the posted
    constraints, the circuit among them. *)
Lemma solution_posted starts durations presences ranks m u m' a :
  rank_tasks_with_circuit starts durations presences ranks m = Ok u m' →
  solution a m' →
  let n := length starts in
  let base := length (bool_vars m) in
  Forall (constraint_sat a) (all_cts starts durations presences ranks n base)
  ∧ circuit_sat a (all_arcs presences n base).
Proof.
  intros Hrun Hsol n base.
  apply rank_tasks_with_circuit_Ok in Hrun as (_ & _ & Hcs).
  unfold solution in Hsol. rewrite Hcs in Hsol.
  apply Forall_app in Hsol as [_ Hsol]. split; [done|].
  assert (mkConstraint [] (Circuit (all_arcs presences n base))
            ∈ all_cts starts durations presences ranks n base) as Hin.
  { unfold all_cts. rewrite !elem_of_app. right; right.
    by apply list_elem_of_singleton. }
  apply (proj1 (Forall_forall _ _) Hsol _ Hin). constructor.
Qed.

(** ** Properties of every solution *)

(** C1. In every solution of the model the encoder leaves behind, if [k]
    of the tasks are present, the multiset of the ranks of the present
    tasks is exactly [{0, 1, ..., k-1}]. *)
Theorem present_ranks_are_dense starts durations presences ranks m m' a k :
  rank_tasks_with_circuit starts durations presences ranks m = Ok tt m' →
  solution a m' →
  length (present_tasks a presences (length starts)) = k →
  rank_values a ranks (present_tasks a presences (length starts))
    ≡ₚ Z.of_nat <$> seq 0 k.
Proof.
  intros Hrun Hsol Hk.
  destruct (solution_posted _ _ _ _ _ _ _ _ Hrun Hsol) as [Hcts Hcirc].
  destruct (visit_order _ _ _ _ _ _ _ Hcts Hcirc) as (ts & Hnd & Hin & Hrk).
  assert (present_tasks a presences (length starts) ≡ₚ ts) as Hperm.
  { apply NoDup_Permutation; [apply NoDup_filter, NoDup_seq | done |].
    intros i. unfold present_tasks.
    rewrite list_elem_of_filter, elem_of_seq, Hin. intuition lia. }
  assert (length ts = k) as Hlen by (by rewrite <- Hperm).
  unfold rank_values. rewrite Hperm, <- Hlen.
  enough ((λ i, ival a (ranks !!! i)) <$> ts
          = Z.of_nat <$> seq 0 (length ts)) as -> by done.
  apply list_eq. intros p.
  rewrite !list_lookup_fmap. destruct (ts !! p) as [i|] eqn:Ei; cbn.
  - rewrite (Hrk p i Ei).
    assert (p < length ts) as Hlt by (by eapply lookup_lt_Some).
    by rewrite lookup_seq_lt.
  - apply lookup_ge_None in Ei. by rewrite lookup_seq_ge.
Qed.

(** C2. In every solution of the model the encoder leaves behind, a task
    is absent exactly when its rank is the sentinel [-1]. *)
Theorem absent_iff_rank_sentinel starts durations presences ranks m m' a i :
  rank_tasks_with_circuit starts durations presences ranks m = Ok tt m' →
  solution a m' →
  i < length starts →
  lit_true a (presences !!! i) = false ↔ ival a (ranks !!! i) = (-1)%Z.
Proof.
  intros Hrun Hsol Hi.
  destruct (solution_posted _ _ _ _ _ _ _ _ Hrun Hsol) as [Hcts Hcirc].
  split; [by eapply absent_rank|]. intros Hrank.
  destruct (lit_true a (presences !!! i)) eqn:Hp; [exfalso | done].
  destruct (visit_order _ _ _ _ _ _ _ Hcts Hcirc) as (ts & _ & Hin & Hrk).
  assert (i ∈ ts) as Hits by (by apply Hin).
  apply list_elem_of_lookup in Hits as [k Hk].
  specialize (Hrk k i Hk). cbv zeta in Hrk. lia.
Qed.

Lemma sample_run :
  rank_tasks_with_circuit sample_starts sample_durations sample_presences
    sample_ranks sample_model = Ok tt sample_encoded.
Proof. by vm_compute. Qed.

Lemma sample_created :
  created sample_model sample_encoded =
  ["start_0"; "end_0"; "arc_0_to_1"; "arc_0_to_2";
   "start_1"; "end_1"; "arc_1_to_0"; "arc_1_to_2";
   "start_2"; "end_2"; "arc_2_to_0"; "arc_2_to_1"; "empty"].
Proof. by vm_compute. Qed.

Ltac by_decide := apply (bool_decide_unpack _); vm_compute; exact I.

Lemma sample_nodes :
  nodes (circuit_arcs (constraints sample_encoded)) = [1; 2; 3; 0].
Proof. by vm_compute. Qed.

Lemma sample_selected :
  selected sample_assignment (circuit_arcs (constraints sample_encoded))
  = [(0, 1); (1, 2); (2, 0); (3, 3)].
Proof. by vm_compute. Qed.

(** The selected arcs are the cycle 0 -> 1 -> 2 -> 0 and the self-loop of
    node 3. *)
Lemma sample_circuit :
  circuit_sat sample_assignment (circuit_arcs (constraints sample_encoded)).
Proof.
  unfold circuit_sat. rewrite sample_nodes, sample_selected. split.
  - intros v Hv. rewrite !elem_of_cons, elem_of_nil in Hv.
    destruct Hv as [->|[->|[->|[->|[]]]]]; by vm_compute.
  - left. exists [0; 1; 2]. split.
    + split; [by_decide|]. cbn [path]. repeat split; by_decide.
    + intros v Hv. rewrite !elem_of_cons, elem_of_nil in Hv.
      destruct Hv as [->|[->|[->|[->|[]]]]]; by_decide.
Qed.

Lemma sample_solution : solution sample_assignment sample_encoded.
Proof.
  unfold solution.
  repeat
    (apply Forall_cons; split;
     [ intros Henf;
       first [ by vm_compute
             | exfalso; apply Forall_cons in Henf as [Hl _]; by vm_compute in Hl
             | exact sample_circuit ]
     |]).
  apply Forall_nil_2.
Qed.

Lemma present_ranks_are_dense_witness :
  rank_tasks_with_circuit sample_starts sample_durations sample_presences
    sample_ranks sample_model = Ok tt sample_encoded ∧
  solution sample_assignment sample_encoded ∧
  length (present_tasks sample_assignment sample_presences
            (length sample_starts)) = 2 ∧
  rank_values sample_assignment sample_ranks
    (present_tasks sample_assignment sample_presences (length sample_starts))
    ≡ₚ Z.of_nat <$> seq 0 2.
Proof.
  split; [exact sample_run|]. split; [exact sample_solution|].
  split; [reflexivity|].
  exact (present_ranks_are_dense sample_starts sample_durations
           sample_presences sample_ranks sample_model sample_encoded
           sample_assignment 2 sample_run sample_solution eq_refl).
Defined.

Lemma absent_iff_rank_sentinel_witness :
  rank_tasks_with_circuit sample_starts sample_durations sample_presences
    sample_ranks sample_model = Ok tt sample_encoded ∧
  solution sample_assignment sample_encoded ∧
  2 < length sample_starts ∧
  (lit_true sample_assignment (sample_presences !!! 2) = false
   ↔ ival sample_assignment (sample_ranks !!! 2) = (-1)%Z).
Proof.
  split; [exact sample_run|]. split; [exact sample_solution|].
  split; [cbn; lia|].
  apply (absent_iff_rank_sentinel sample_starts sample_durations
           sample_presences sample_ranks sample_model sample_encoded
           sample_assignment 2 sample_run sample_solution).
  cbn; lia.
Defined.

(** ** Degenerate and ill-formed inputs *)

(** C9. With no task at all the encoder completes: no loop body runs, no
    implication is posted, and the model gains only the [empty] literal and
    a circuit over the depot self-loop it is bound to. *)
Theorem no_tasks_only_depot_loop m :
  rank_tasks_with_circuit [] [] [] [] m =
  Ok tt (mkModel (bool_vars m ++ ["empty"])
                 (constraints m
                    ++ [mkConstraint []
                          (Circuit [(0, 0, Pos (length (bool_vars m)))])])).
Proof. reflexivity. Qed.

(** C8, as stated, does not hold: a task of duration zero violates the
    contract, yet the encoder raises nothing and posts the whole model. *)
Lemma contract_violation_not_rejected :
  ¬ contract_ok [0] [0%Z] [Pos 0] [1] ∧
  ¬ fails_fast (rank_tasks_with_circuit [0] [0%Z] [Pos 0] [1])
               (mkModel ["presence[0]"] []).
Proof.
  split.
  - intros (_ & _ & _ & Hd). apply Forall_cons in Hd as [Hd _]. lia.
  - intros (e & m' & He & _). vm_compute in He. discriminate He.
Qed.

Example zero_duration_accepted :
  rank_tasks_with_circuit [0] [0%Z] [Pos 0] [1] (mkModel ["presence[0]"] [])
  = Ok tt
      (mkModel ["presence[0]"; "start_0"; "end_0"; "empty"]
         [enforced (Pos 1) (Eq (EVar 1) (EConst 0));
          enforced (Pos 1) (Eq (EVar 0) (EConst 0));
          enforced (Neg 0) (Eq (EVar 1) (EConst (-1)));
          mkConstraint [] (Implication (Pos 3) (Neg 0));
          mkConstraint []
            (Circuit [(0, 1, Pos 1); (1, 0, Pos 2); (1, 1, Neg 0);
                      (0, 0, Pos 3)])]).
Proof. reflexivity. Qed.

(** When [presences] is too short the exception comes after two
    constraints of the first task are already in the model. *)
Example short_presences_raise_late :
  rank_tasks_with_circuit [0] [1%Z] [] [1] (mkModel [] [])
  = Raise IndexError
      (mkModel ["start_0"; "end_0"]
         [enforced (Pos 0) (Eq (EVar 1) (EConst 0));
          enforced (Pos 0) (Eq (EVar 0) (EConst 0))]).
Proof. reflexivity. Qed.

(** With a single task [durations] is never subscripted, so its length
    goes unnoticed. *)
Example short_durations_unnoticed :
  rank_tasks_with_circuit [0] [] [Pos 0] [1] (mkModel ["presence[0]"] [])
  = rank_tasks_with_circuit [0] [7%Z] [Pos 0] [1] (mkModel ["presence[0]"] []).
Proof. reflexivity. Qed.

(** C8, amended.  The encoder validates nothing and has no error of its
    own.  A duration that is zero or negative is not rejected: whatever the
    signs of the durations, when every subscript the encoder evaluates is
    in range the call completes and posts the whole encoding.  When a
    sequence is too short for a subscript that is evaluated, the call
    raises only once it gets there, in mid-construction: the model it
    leaves behind still starts with the old constraints but already holds
    at least one new literal. *)
Theorem no_validation_before_posting starts durations presences ranks m :
  Forall representable durations →
  match rank_tasks_with_circuit starts durations presences ranks m with
  | Ok _ m' =>
      subscripts_ok starts durations presences ranks = true ∧
      m' = mkModel (bool_vars m ++ all_names (length starts))
                   (constraints m
                      ++ all_cts starts durations presences ranks
                           (length starts) (length (bool_vars m)))
  | Raise _ m' =>
      subscripts_ok starts durations presences ranks = false ∧
      length (bool_vars m) < length (bool_vars m') ∧
      constraints m `prefix_of` constraints m'
  end.
Proof.
  intros _.
  destruct (rank_tasks_with_circuit starts durations presences ranks m)
    as [u m'|e m'] eqn:Hrun.
  - apply rank_tasks_with_circuit_Ok in Hrun as (Hok & Hbv & Hcs).
    split; [done|]. destruct m'; cbn in *. by subst.
  - assert (subscripts_ok starts durations presences ranks = false) as Hbad.
    { destruct (subscripts_ok starts durations presences ranks) eqn:Hok;
        [exfalso | done].
      unfold subscripts_ok in Hok.
      rewrite !andb_true_iff, !bool_decide_eq_true in Hok.
      destruct Hok as [[Hr Hp] Hd].
      rewrite (rank_tasks_with_circuit_run starts durations presences ranks
                 _ Hr Hp Hd m eq_refl) in Hrun. discriminate Hrun. }
    split; [done|].
    assert (0 < length starts) as Hn.
    { destruct (length starts) eqn:En; [|lia].
      unfold subscripts_ok in Hbad. rewrite En in Hbad.
      rewrite !andb_false_iff, !bool_decide_eq_false in Hbad.
      destruct Hbad as [[?|?]|Hd]; [lia | lia |]. exfalso. apply Hd. lia. }
    pose proof (grows_strictly_rank_tasks_with_circuit
                  starts durations presences ranks Hn m) as Hg.
    rewrite Hrun in Hg. split; [done|].
    pose proof (keeps_rank_tasks_with_circuit (length (constraints m))
                  starts durations presences ranks m (Nat.le_refl _)) as Hk.
    rewrite Hrun in Hk. destruct Hk as (Htake & Hle & _).
    rewrite firstn_all in Htake. rewrite <- Htake. apply prefix_take.
Qed.

(** A task of duration zero and sequences of matching lengths: the call
    completes. *)
Lemma no_validation_before_posting_witness :
  Forall representable [0%Z] ∧
  match rank_tasks_with_circuit [0] [0%Z] [Pos 0] [1]
          (mkModel ["presence[0]"] []) with
  | Ok _ m' =>
      subscripts_ok [0] [0%Z] [Pos 0] [1] = true ∧
      m' = mkModel (["presence[0]"] ++ all_names 1)
                   (all_cts [0] [0%Z] [Pos 0] [1] 1 1)
  | Raise _ m' =>
      subscripts_ok [0] [0%Z] [Pos 0] [1] = false ∧
      1 < length (bool_vars m') ∧
      [] `prefix_of` constraints m'
  end.
Proof.
  assert (Forall representable [0%Z]) as Hd.
  { apply Forall_cons. split; [by vm_compute | apply Forall_nil_2]. }
  split; [exact Hd|].
  exact (no_validation_before_posting [0] [0%Z] [Pos 0] [1]
           (mkModel ["presence[0]"] []) Hd).
Defined.

(** ** The frame of the encoder *)

Lemma flat_map_ext_elem {A B} (f g : A → list B) (l : list A) :
  (∀ x, x ∈ l → f x = g x) → flat_map f l = flat_map g l.
Proof.
  induction l as [|x l IH]; intros Hfg; cbn; [done|].
  rewrite Hfg by (apply elem_of_cons; by left).
  rewrite IH; [done|]. intros y Hy. apply Hfg, elem_of_cons. by right.
Qed.

Lemma map_ext_elem {A B} (f g : A → B) (l : list A) :
  (∀ x, x ∈ l → f x = g x) → map f l = map g l.
Proof.
  induction l as [|x l IH]; intros Hfg; cbn; [done|].
  rewrite Hfg by (apply elem_of_cons; by left).
  rewrite IH; [done|]. intros y Hy. apply Hfg, elem_of_cons. by right.
Qed.

(** The closed form reads its sequences below [n] only. *)
Lemma all_cts_ext starts durations presences ranks durations' presences'
    ranks' n base :
  (∀ i, i < n → durations !!! i = durations' !!! i) →
  (∀ i, i < n → presences !!! i = presences' !!! i) →
  (∀ i, i < n → ranks !!! i = ranks' !!! i) →
  all_cts starts durations presences ranks n base
  = all_cts starts durations' presences' ranks' n base.
Proof.
  intros Hd Hp Hr. unfold all_cts, all_arcs, empty_cts. f_equal; [|f_equal].
  - apply flat_map_ext_elem. intros i Hi%elem_of_seq. unfold task_cts.
    rewrite (Hr i) by lia. f_equal.
    apply flat_map_ext_elem. intros j Hj%elem_of_seq. unfold pair_cts.
    by rewrite (Hr i), (Hr j), (Hd i), (Hp i) by lia.
  - apply map_ext_elem. intros i Hi%elem_of_seq. by rewrite (Hp i) by lia.
  - do 4 f_equal. apply flat_map_ext_elem. intros i Hi%elem_of_seq.
    unfold task_arcs. f_equal.
    apply map_ext_elem. intros j Hj%elem_of_seq. unfold pair_arc.
    by rewrite (Hp i) by lia.
Qed.


(** ** The shape of the posted model *)

Lemma filter_flat_map {A B} (P : B → Prop) `{∀ x, Decision (P x)}
    (f : A → list B) (l : list A) :
  filter P (flat_map f l) = flat_map (λ x, filter P (f x)) l.
Proof.
  induction l as [|x l IH]; cbn; [done|]. by rewrite filter_app, IH.
Qed.

Lemma flat_map_single {A B} (f : A → list B) (l : list A) (i : A) :
  NoDup l → i ∈ l → (∀ x, x ∈ l → x ≠ i → f x = []) →
  flat_map f l = f i.
Proof.
  induction l as [|y l IH]; intros Hnd Hi Hf; [by apply elem_of_nil in Hi|].
  apply NoDup_cons in Hnd as [Hy Hnd]. cbn.
  apply elem_of_cons in Hi as [->|Hi].
  - rewrite (flat_map_ext_elem f (λ _, [])).
    + clear. induction l; cbn; [by rewrite app_nil_r | done].
    + intros x Hx. apply Hf; [by apply elem_of_cons; right|].
      by intros ->.
  - rewrite Hf, IH; [done.. | | by apply elem_of_cons; left | by intros ->].
    intros x Hx. apply Hf. by apply elem_of_cons; right.
Qed.

Lemma filter_none {A} (P : A → Prop) `{∀ x, Decision (P x)} (l : list A) :
  (∀ x, x ∈ l → ¬ P x) → filter P l = [].
Proof.
  induction l as [|x l IH]; intros Hl; [done|].
  rewrite filter_cons_False by (apply Hl, elem_of_cons; by left).
  apply IH. intros y Hy. apply Hl, elem_of_cons. by right.
Qed.

Lemma filter_unique {A} (P : A → Prop) `{∀ x, Decision (P x)} (l : list A) x :
  NoDup l → x ∈ l → P x → (∀ y, y ∈ l → P y → y = x) → filter P l = [x].
Proof.
  induction l as [|y l IH]; intros Hnd Hx HP Huniq;
    [by apply elem_of_nil in Hx|].
  apply NoDup_cons in Hnd as [Hy Hnd].
  apply elem_of_cons in Hx as [<-|Hx].
  - rewrite filter_cons_True by done. f_equal. apply filter_none.
    intros z Hz HPz.
    assert (z = x) as -> by (apply Huniq; [apply elem_of_cons; by right | done]).
    done.
  - rewrite filter_cons_False.
    + apply IH; [done..|]. intros z Hz. apply Huniq, elem_of_cons. by right.
    + intros HPy.
      assert (y = x) as -> by (apply Huniq; [apply elem_of_cons; by left | done]).
      done.
Qed.

Lemma fmap_flat_map {A B C} (g : B → C) (f : A → list B) (l : list A) :
  g <$> flat_map f l = flat_map (λ x, g <$> f x) l.
Proof.
  induction l as [|x l IH]; cbn; [done|]. by rewrite fmap_app, IH.
Qed.

(** Blocks that can be told apart by an [owner] do not overlap. *)
Lemma NoDup_flat_map {A B} (owner : B → A) (f : A → list B) (l : list A) :
  NoDup l →
  (∀ x, x ∈ l → NoDup (f x)) →
  (∀ x z, x ∈ l → z ∈ f x → owner z = x) →
  NoDup (flat_map f l).
Proof.
  induction l as [|x l IH]; intros Hnd Hf Hown; cbn; [constructor|].
  apply NoDup_cons in Hnd as [Hx Hnd]. apply NoDup_app. split; [|split].
  - apply Hf, elem_of_cons. by left.
  - intros z Hz Hz'. apply elem_of_flat_map in Hz' as (y & Hy & Hzy).
    assert (owner z = x) as Ex by (apply Hown; [apply elem_of_cons; by left | done]).
    assert (owner z = y) as Ey by (apply Hown; [apply elem_of_cons; by right | done]).
    congruence.
  - apply IH; [done | |].
    + intros y Hy. apply Hf, elem_of_cons. by right.
    + intros y z Hy. apply Hown, elem_of_cons. by right.
Qed.

Lemma NoDup_fmap_inj_on {A B} (f : A → B) (l : list A) x y :
  NoDup (f <$> l) → x ∈ l → y ∈ l → f x = f y → x = y.
Proof.
  induction l as [|z l IH]; intros Hnd Hx Hy Hxy; [by apply elem_of_nil in Hx|].
  rewrite fmap_cons in Hnd. apply NoDup_cons in Hnd as [Hz Hnd].
  apply elem_of_cons in Hx as [->|Hx]; apply elem_of_cons in Hy as [->|Hy].
  - done.
  - exfalso. apply Hz. rewrite Hxy. by apply list_elem_of_fmap_2.
  - exfalso. apply Hz. rewrite <- Hxy. by apply list_elem_of_fmap_2.
  - by apply IH.
Qed.

(** Two slots of the table of fresh literals coincide only if they are the
    same slot. *)
Lemma slot_unique n i o i' o' :
  o ≤ n → o' ≤ n → i * (n + 1) + o = i' * (n + 1) + o' → i = i' ∧ o = o'.
Proof.
  intros Ho Ho' H.
  assert (i = i') as ->.
  { destruct (Nat.lt_trichotomy i i') as [?|[?|?]]; [|done|]; exfalso; nia. }
  split; [done | lia].
Qed.

Section Shape.
Variables (starts : list ivar) (durations : list Z)
          (presences : list lit) (ranks : list ivar).
Variables (n base : nat).

Let arcs := all_arcs presences n base.
Let cts := all_cts starts durations presences ranks n base.

Lemma pair_arc_ends i j : (pair_arc presences n base i j).1 = (i + 1, j + 1).
Proof. unfold pair_arc. by case_decide; subst. Qed.

Lemma task_arcs_ends i :
  (task_arcs presences n base i).*1
  = [(0, i + 1); (i + 1, 0)] ++ ((λ j, (i + 1, j + 1)) <$> seq 0 n).
Proof.
  unfold task_arcs. rewrite fmap_app. cbn [fmap list_fmap fst]. f_equal.
  rewrite <- list_fmap_compose. apply map_ext_elem. intros j _. cbn.
  apply pair_arc_ends.
Qed.

Lemma all_arcs_ends :
  arcs.*1 = flat_map (λ i, (task_arcs presences n base i).*1) (seq 0 n)
              ++ [(0, 0)].
Proof. unfold arcs, all_arcs. by rewrite fmap_app, fmap_flat_map. Qed.

Lemma all_arcs_NoDup_ends : NoDup arcs.*1.
Proof.
  rewrite all_arcs_ends. apply NoDup_app. split; [|split].
  - apply (NoDup_flat_map
             (λ e : nat * nat, if decide (e.1 = 0) then e.2 - 1 else e.1 - 1)).
    + apply NoDup_seq.
    + intros i _. rewrite task_arcs_ends. cbn [app].
      rewrite !NoDup_cons, !elem_of_cons, !list_elem_of_fmap.
      split; [|split].
      * intros [?|(j & ? & _)]; simplify_eq; lia.
      * intros (j & ? & _). simplify_eq. lia.
      * apply NoDup_fmap_2_strong; [|apply NoDup_seq].
        intros ? ? _ _ ?. simplify_eq. lia.
    + intros i e _. rewrite task_arcs_ends. cbn [app].
      rewrite !elem_of_cons, list_elem_of_fmap.
      intros [->|[->|(j & -> & _)]]; cbn; case_decide; lia.
  - intros e He. apply elem_of_flat_map in He as (i & _ & He).
    rewrite task_arcs_ends in He. cbn [app] in He.
    rewrite !elem_of_cons, list_elem_of_fmap in He.
    rewrite list_elem_of_singleton.
    destruct He as [->|[->|(j & -> & _)]]; intros ?; simplify_eq; lia.
  - apply NoDup_singleton.
Qed.

Lemma all_arcs_length : length arcs = (n + 1) ^ 2.
Proof.
  unfold arcs, all_arcs. rewrite length_app.
  rewrite (flat_map_constant_length (c := n + 2)).
  - rewrite length_seq. cbn. lia.
  - intros i _. unfold task_arcs. rewrite length_app, length_map, length_seq.
    cbn. lia.
Qed.

Lemma arc_lit_elem u v : u ≤ n → v ≤ n → (u, v, arc_lit presences n base u v) ∈ arcs.
Proof.
  intros Hu Hv. apply elem_of_all_arcs. unfold arc_lit.
  destruct u as [|i], v as [|j].
  - by right.
  - left. exists j. split; [lia|]. left. do 2 f_equal. lia.
  - left. exists i. split; [lia|]. right; left. do 2 f_equal. lia.
  - left. exists i. split; [lia|]. right; right. exists j. split; [lia|].
    rewrite (surjective_pairing (pair_arc presences n base i j)).
    rewrite pair_arc_ends. do 2 f_equal; lia.
Qed.

Lemma all_arcs_bound t : t ∈ arcs → t.1.1 ≤ n ∧ t.1.2 ≤ n.
Proof.
  intros Ht. apply elem_of_all_arcs in Ht
    as [(i & Hi & [->|[->|(j & Hj & ->)]])| ->]; cbn; try lia.
  rewrite pair_arc_ends. cbn. lia.
Qed.

(** Exactly one arc joins each ordered pair of nodes. *)
Lemma all_arcs_at u v :
  u ≤ n → v ≤ n →
  filter (λ t : ArcT, t.1 = (u, v)) arcs = [(u, v, arc_lit presences n base u v)].
Proof.
  intros Hu Hv. apply filter_unique.
  - eapply NoDup_fmap_1, all_arcs_NoDup_ends.
  - by apply arc_lit_elem.
  - done.
  - intros t Ht Hends.
    apply (NoDup_fmap_inj_on fst arcs); [apply all_arcs_NoDup_ends | done | |done].
    by apply arc_lit_elem.
Qed.
End Shape.

(** ** What is attached to each literal *)

Lemma conditioned_on_enforced l l' ct :
  conditioned_on l (enforced l' ct) = bool_decide (l = l').
Proof.
  unfold conditioned_on, enforced. cbn. rewrite orb_false_r.
  apply bool_decide_ext. rewrite list_elem_of_singleton. done.
Qed.

Lemma filter_enforced l l' ct :
  filter (λ c, conditioned_on l c = true) [enforced l' ct]
  = if decide (l = l') then [enforced l' ct] else [].
Proof.
  case_decide as Hl.
  - rewrite filter_cons_True; [done|].
    rewrite conditioned_on_enforced. by apply bool_decide_eq_true.
  - rewrite filter_cons_False; [done|].
    rewrite conditioned_on_enforced. by rewrite bool_decide_eq_true.
Qed.

Lemma circuit_arcs_app cs1 cs2 :
  circuit_arcs (cs1 ++ cs2) = circuit_arcs cs1 ++ circuit_arcs cs2.
Proof. apply flat_map_app. Qed.

Lemma circuit_arcs_none cs :
  (∀ c, c ∈ cs → ∀ arcs, body c ≠ Circuit arcs) → circuit_arcs cs = [].
Proof.
  unfold circuit_arcs.
  induction cs as [|c cs IH]; intros Hcs; [done|]. cbn.
  rewrite IH by (intros c' Hc'; apply Hcs, elem_of_cons; by right).
  assert (c ∈ c :: cs) as Hc by (apply elem_of_cons; by left).
  specialize (Hcs c Hc). destruct (body c) as [| |arcs]; [done..|].
  by destruct (Hcs arcs).
Qed.

Section Gates.
Variables (starts : list ivar) (durations : list Z)
          (presences : list lit) (ranks : list ivar).
Variables (n base : nat).

Let arcs := all_arcs presences n base.
Let cts := all_cts starts durations presences ranks n base.

(** The posted circuit is over the collected arcs. *)
Lemma task_cts_linear i c :
  c ∈ task_cts starts durations presences ranks n base i →
  ∃ l ct, c = enforced l ct.
Proof.
  unfold task_cts. rewrite elem_of_app, !elem_of_cons, elem_of_nil.
  rewrite elem_of_flat_map.
  intros [[->|[->|[]]]|(j & _ & Hc)]; [by eauto.. |].
  unfold pair_cts in Hc. case_decide;
    rewrite !elem_of_cons, elem_of_nil in Hc;
    destruct Hc as [->|Hc]; try destruct Hc as [->|[]]; by eauto.
Qed.

Lemma circuit_arcs_all_cts : circuit_arcs cts = arcs.
Proof.
  unfold cts, all_cts. rewrite !circuit_arcs_app.
  rewrite (circuit_arcs_none (flat_map _ _)),
    (circuit_arcs_none (empty_cts _ _ _)); [cbn; by rewrite app_nil_r | |].
  - intros c Hc. unfold empty_cts in Hc.
    apply list_elem_of_fmap in Hc as (i & -> & _). done.
  - intros c Hc. apply elem_of_flat_map in Hc as (i & _ & Hc).
    apply task_cts_linear in Hc as (l & ct & ->). done.
Qed.
End Gates.

(** C7. The arcs handed to the circuit constraint are those of the complete
    directed graph on the [n + 1] nodes, self-loops included: [(n + 1)^2]
    triples, all between nodes [0 .. n], and exactly one triple for each
    ordered pair of nodes. *)
Theorem arcs_cover_complete_graph starts durations presences ranks m m' :
  rank_tasks_with_circuit starts durations presences ranks m = Ok tt m' →
  let n := length starts in
  let arcs := circuit_arcs (posted m m') in
  length arcs = (n + 1) ^ 2 ∧
  (∀ t, t ∈ arcs → t.1.1 ≤ n ∧ t.1.2 ≤ n) ∧
  (∀ u v, u ≤ n → v ≤ n →
          ∃ l, filter (λ t : ArcT, t.1 = (u, v)) arcs = [(u, v, l)]).
Proof.
  intros Hrun n arcs.
  apply rank_tasks_with_circuit_Ok in Hrun as (_ & _ & Hcs).
  assert (arcs = all_arcs presences n (length (bool_vars m))) as ->.
  { unfold arcs, posted. rewrite Hcs, drop_app_length.
    apply circuit_arcs_all_cts. }
  split; [apply all_arcs_length|]. split; [apply all_arcs_bound|].
  intros u v Hu Hv. eexists. by apply all_arcs_at.
Qed.

Lemma arcs_cover_complete_graph_witness :
  rank_tasks_with_circuit sample_starts sample_durations sample_presences
    sample_ranks sample_model = Ok tt sample_encoded ∧
  let arcs := circuit_arcs (posted sample_model sample_encoded) in
  length arcs = (3 + 1) ^ 2 ∧
  (∀ t, t ∈ arcs → t.1.1 ≤ 3 ∧ t.1.2 ≤ 3) ∧
  (∀ u v, u ≤ 3 → v ≤ 3 →
          ∃ l, filter (λ t : ArcT, t.1 = (u, v)) arcs = [(u, v, l)]).
Proof.
  split; [exact sample_run|].
  exact (arcs_cover_complete_graph sample_starts sample_durations
           sample_presences sample_ranks sample_model sample_encoded
           sample_run).
Defined.

Lemma filter_enforced_pair l l' ct1 ct2 :
  filter (λ c, conditioned_on l c = true) [enforced l' ct1; enforced l' ct2]
  = if decide (l = l') then [enforced l' ct1; enforced l' ct2] else [].
Proof.
  change [enforced l' ct1; enforced l' ct2]
    with ([enforced l' ct1] ++ [enforced l' ct2]).
  rewrite filter_app, !filter_enforced. by case_decide.
Qed.

Section Attached.
Variables (starts : list ivar) (durations : list Z)
          (presences : list lit) (ranks : list ivar).
Variables (n base : nat).

Let cts := all_cts starts durations presences ranks n base.

(** The presence literals are variables of the model as it was before
    the call. *)
Hypothesis presences_old : ∀ i, i < n → lit_var (presences !!! i) < base.

Lemma succ_var_slot i j :
  i < n → j < n → i ≠ j →
  ∃ o, succ_var n base i j = base + i * (n + 1) + o ∧ 2 ≤ o ≤ n ∧
       o = 2 + (if decide (j < i) then j else j - 1).
Proof.
  intros Hi Hj Hij. unfold succ_var. eexists. split; [|split; [|done]].
  - by rewrite <- Nat.add_assoc.
  - case_decide; lia.
Qed.

Lemma succ_var_inj i j i' j' :
  i < n → j < n → i ≠ j → i' < n → j' < n → i' ≠ j' →
  succ_var n base i j = succ_var n base i' j' → i = i' ∧ j = j'.
Proof.
  intros Hi Hj Hij Hi' Hj' Hij' Heq.
  destruct (succ_var_slot i j) as (o & Eo & Ho & Ho'); [done..|].
  destruct (succ_var_slot i' j') as (o' & Eo' & Ho2 & Ho2'); [done..|].
  destruct (slot_unique n i o i' o') as [-> ->]; [lia | lia | lia |].
  split; [done|]. repeat case_decide; lia.
Qed.

Lemma succ_var_not_start i j i' :
  i < n → j < n → i ≠ j → succ_var n base i j ≠ start_var n base i'.
Proof.
  intros Hi Hj Hij Heq.
  destruct (succ_var_slot i j) as (o & Eo & Ho & _); [done..|].
  unfold start_var in Heq.
  destruct (slot_unique n i o i' 0); lia.
Qed.

Lemma succ_var_not_end i j i' :
  i < n → j < n → i ≠ j → succ_var n base i j ≠ end_var n base i'.
Proof.
  intros Hi Hj Hij Heq.
  destruct (succ_var_slot i j) as (o & Eo & Ho & _); [done..|].
  unfold end_var in Heq.
  destruct (slot_unique n i o i' 1); lia.
Qed.

Lemma succ_var_not_empty i j :
  i < n → j < n → i ≠ j → succ_var n base i j ≠ empty_var n base.
Proof.
  intros Hi Hj Hij Heq.
  destruct (succ_var_slot i j) as (o & Eo & Ho & _); [done..|].
  unfold empty_var in Heq.
  destruct (slot_unique n i o n 0); lia.
Qed.

Lemma start_var_inj i i' : start_var n base i = start_var n base i' → i = i'.
Proof.
  unfold start_var. intros Heq. destruct (slot_unique n i 0 i' 0); lia.
Qed.

Lemma end_var_inj i i' : end_var n base i = end_var n base i' → i = i'.
Proof.
  unfold end_var. intros Heq.
  destruct (decide (n = 0)) as [->|Hn]; [lia|].
  destruct (slot_unique n i 1 i' 1); lia.
Qed.

Lemma start_var_not_end i i' :
  0 < n → start_var n base i ≠ end_var n base i'.
Proof.
  unfold start_var, end_var. intros Hn Heq.
  destruct (slot_unique n i 0 i' 1); lia.
Qed.

Lemma start_var_not_empty i : i < n → start_var n base i ≠ empty_var n base.
Proof.
  unfold start_var, empty_var. intros Hi Heq.
  destruct (slot_unique n i 0 n 0); lia.
Qed.

Lemma end_var_not_empty i : i < n → end_var n base i ≠ empty_var n base.
Proof.
  unfold end_var, empty_var. intros Hi Heq.
  destruct (slot_unique n i 1 n 0); lia.
Qed.

(** The literal on the arc of a pair of tasks is fresh exactly when the
    tasks differ. *)
Lemma pair_arc_lit_fresh i j v :
  i < n → j < n → base ≤ v →
  (pair_arc presences n base i j).2 = Pos v →
  i ≠ j ∧ v = succ_var n base i j.
Proof.
  intros Hi Hj Hv. unfold pair_arc. case_decide as Hij; cbn.
  - subst j. pose proof (presences_old i Hi) as Hold.
    destruct (presences !!! i); cbn in *; intros [= <-]. lia.
  - by intros [= <-].
Qed.

Lemma filter_pair_cts l i j :
  filter (λ c, conditioned_on l c = true)
         (pair_cts starts durations presences ranks n base i j)
  = if decide (l = (pair_arc presences n base i j).2)
    then pair_cts starts durations presences ranks n base i j else [].
Proof.
  unfold pair_cts, pair_arc. case_decide; cbn [snd].
  - apply filter_enforced.
  - apply filter_enforced_pair.
Qed.

Lemma filter_task_cts l i :
  filter (λ c, conditioned_on l c = true)
         (task_cts starts durations presences ranks n base i)
  = (if decide (l = Pos (start_var n base i))
     then [enforced (Pos (start_var n base i))
             (Eq (EVar (ranks !!! i)) (EConst 0));
           enforced (Pos (start_var n base i))
             (Eq (EVar (starts !!! i)) (EConst 0))]
     else [])
    ++ flat_map
         (λ j, if decide (l = (pair_arc presences n base i j).2)
               then pair_cts starts durations presences ranks n base i j
               else [])
         (seq 0 n).
Proof.
  unfold task_cts. rewrite filter_app, filter_enforced_pair. f_equal.
  rewrite filter_flat_map. apply flat_map_ext_elem. intros j _.
  apply filter_pair_cts.
Qed.

Lemma filter_empty_cts l :
  filter (λ c, conditioned_on l c = true) (empty_cts presences n base)
  = if decide (l = Pos (empty_var n base))
    then empty_cts presences n base else [].
Proof.
  unfold empty_cts. case_decide as Hl.
  - subst l. induction (seq 0 n) as [|i l IH]; [done|]. cbn [map].
    rewrite filter_cons_True, IH; [done|]. unfold conditioned_on. cbn.
    rewrite (bool_decide_eq_true_2 (Pos _ = Pos _)) by done.
    apply orb_true_r.
  - apply filter_none. intros c Hc.
    apply list_elem_of_fmap in Hc as (i & -> & _).
    unfold conditioned_on. cbn.
    rewrite (bool_decide_eq_false_2 (Pos _ = l)) by done.
    rewrite bool_decide_eq_false_2 by apply not_elem_of_nil. done.
Qed.

(** The posted constraints that are conditioned on a given literal. *)
Lemma filter_all_cts l :
  filter (λ c, conditioned_on l c = true) cts
  = flat_map
      (λ i, filter (λ c, conditioned_on l c = true)
              (task_cts starts durations presences ranks n base i))
      (seq 0 n)
    ++ (if decide (l = Pos (empty_var n base))
        then empty_cts presences n base else []).
Proof.
  unfold cts, all_cts. rewrite !filter_app, filter_flat_map, filter_empty_cts.
  rewrite (filter_none _ [_]); [by rewrite app_nil_r|].
  intros c ->%list_elem_of_singleton. unfold conditioned_on. cbn.
  rewrite bool_decide_eq_false_2 by apply not_elem_of_nil. done.
Qed.

Lemma pair_arc_lit_succ i j :
  i ≠ j → (pair_arc presences n base i j).2 = Pos (succ_var n base i j).
Proof. intros Hij. unfold pair_arc. by rewrite decide_False. Qed.

Lemma pairs_not_conditioned v i :
  i < n → base ≤ v →
  (∀ j, j < n → i ≠ j → v ≠ succ_var n base i j) →
  flat_map
    (λ j, if decide (Pos v = (pair_arc presences n base i j).2)
          then pair_cts starts durations presences ranks n base i j
          else [])
    (seq 0 n) = [].
Proof.
  intros Hi Hv Hne. rewrite (flat_map_ext_elem _ (λ _, [])).
  - by induction (seq 0 n).
  - intros j Hj%elem_of_seq. rewrite decide_False; [done|]. intros Heq.
    destruct (pair_arc_lit_fresh i j v) as [Hij ->]; [lia.. | done |].
    apply (Hne j); [lia | done | done].
Qed.

Lemma tasks_not_conditioned (f : nat → list Constraint) :
  (∀ i, i < n → f i = []) → flat_map f (seq 0 n) = [].
Proof.
  intros Hf. rewrite (flat_map_ext_elem _ (λ _, [])).
  - by induction (seq 0 n).
  - intros i Hi%elem_of_seq. apply Hf. lia.
Qed.

(** Conditioned on a successor literal: the rank step and the
    precedence, nothing else. *)
Lemma filter_cts_successor i j :
  i < n → j < n → i ≠ j →
  filter (λ c, conditioned_on (Pos (succ_var n base i j)) c = true) cts
  = [enforced (Pos (succ_var n base i j))
       (Eq (EVar (ranks !!! j)) (EAdd (EVar (ranks !!! i)) (EConst 1)));
     enforced (Pos (succ_var n base i j))
       (Ge (EVar (starts !!! j))
           (EAdd (EVar (starts !!! i)) (EConst (durations !!! i))))].
Proof.
  intros Hi Hj Hij. rewrite filter_all_cts.
  rewrite decide_False, app_nil_r
    by (intros [= Heq]; by apply succ_var_not_empty in Heq).
  rewrite (flat_map_single _ _ i);
    [| apply NoDup_seq | apply elem_of_seq; lia |].
  - rewrite filter_task_cts.
    rewrite decide_False
      by (intros [= Heq]; by apply succ_var_not_start in Heq).
    rewrite (flat_map_single _ _ j);
      [| apply NoDup_seq | apply elem_of_seq; lia |].
    + rewrite decide_True by (by rewrite pair_arc_lit_succ).
      unfold pair_cts. by rewrite decide_False.
    + intros j' Hj'%elem_of_seq Hne. rewrite decide_False; [done|].
      intros Heq. symmetry in Heq.
      destruct (pair_arc_lit_fresh i j' (succ_var n base i j) Hi)
        as [Hij' Heq']; [lia | unfold succ_var; lia | done |].
      apply succ_var_inj in Heq' as [_ ?]; [done | done.. | lia | done].
  - intros i' Hi'%elem_of_seq Hne. rewrite filter_task_cts.
    rewrite decide_False
      by (intros [= Heq]; by apply succ_var_not_start in Heq).
    apply pairs_not_conditioned; [lia | unfold succ_var; lia |].
    intros j' Hj' Hij' Heq.
    apply succ_var_inj in Heq as [? _]; [done | done.. | lia | done | done].
Qed.

(** Conditioned on a "first" literal: rank zero and start zero, nothing
    else. *)
Lemma filter_cts_first i :
  i < n →
  filter (λ c, conditioned_on (Pos (start_var n base i)) c = true) cts
  = [enforced (Pos (start_var n base i))
       (Eq (EVar (ranks !!! i)) (EConst 0));
     enforced (Pos (start_var n base i))
       (Eq (EVar (starts !!! i)) (EConst 0))].
Proof.
  intros Hi. rewrite filter_all_cts.
  rewrite decide_False, app_nil_r
    by (intros [= Heq]; by apply start_var_not_empty in Heq).
  rewrite (flat_map_single _ _ i);
    [| apply NoDup_seq | apply elem_of_seq; lia |].
  - rewrite filter_task_cts, decide_True by done.
    rewrite pairs_not_conditioned; [done | done | unfold start_var; lia |].
    intros j Hj Hij Heq. symmetry in Heq.
    by apply succ_var_not_start in Heq.
  - intros i' Hi'%elem_of_seq Hne. rewrite filter_task_cts.
    rewrite decide_False
      by (intros [= Heq]; by apply start_var_inj in Heq).
    apply pairs_not_conditioned; [lia | unfold start_var; lia |].
    intros j Hj Hij Heq. symmetry in Heq.
    apply succ_var_not_start in Heq; [done | lia | done..].
Qed.

(** Nothing is conditioned on a "last" literal. *)
Lemma filter_cts_last i :
  i < n →
  filter (λ c, conditioned_on (Pos (end_var n base i)) c = true) cts = [].
Proof.
  intros Hi. rewrite filter_all_cts.
  rewrite decide_False, app_nil_r
    by (intros [= Heq]; by apply end_var_not_empty in Heq).
  apply tasks_not_conditioned.
  intros i' Hi'. rewrite filter_task_cts.
  rewrite decide_False
    by (intros [= Heq]; symmetry in Heq;
        apply start_var_not_end in Heq; [done | lia]).
  apply pairs_not_conditioned; [lia | unfold end_var; lia |].
  intros j Hj Hij Heq. symmetry in Heq.
  by apply succ_var_not_end in Heq.
Qed.

Let arcs := all_arcs presences n base.

(** The arcs that carry a literal created by the encoder. *)
Lemma fresh_arc_cases t :
  t ∈ arcs → base ≤ lit_var t.2 →
  (∃ i, i < n ∧ t = (0, i + 1, Pos (start_var n base i))) ∨
  (∃ i, i < n ∧ t = (i + 1, 0, Pos (end_var n base i))) ∨
  (∃ i j, i < n ∧ j < n ∧ i ≠ j ∧
          t = (i + 1, j + 1, Pos (succ_var n base i j))) ∨
  t = (0, 0, Pos (empty_var n base)).
Proof.
  intros Ht Hfresh. apply elem_of_all_arcs in Ht
    as [(i & Hi & [->|[->|(j & Hj & ->)]])| ->];
    [left; by exists i | right; left; by exists i | | by do 3 right].
  right; right; left. exists i, j. unfold pair_arc in *.
  case_decide as Hij; cbn in Hfresh.
  - subst j. pose proof (presences_old i Hi).
    destruct (presences !!! i); cbn in *; lia.
  - done.
Qed.

(** A literal created by the encoder sits on one arc only. *)
Lemma fresh_lit_one_arc t t' :
  t ∈ arcs → t' ∈ arcs → base ≤ lit_var t.2 →
  lit_var t.2 = lit_var t'.2 → t = t'.
Proof.
  intros Ht Ht' Hfresh Heq.
  assert (base ≤ lit_var t'.2) as Hfresh' by lia.
  destruct (fresh_arc_cases t Ht Hfresh)
    as [(i & Hi & ->)|[(i & Hi & ->)|[(i & j & Hi & Hj & Hij & ->)| ->]]];
  destruct (fresh_arc_cases t' Ht' Hfresh')
    as [(i' & Hi' & ->)|[(i' & Hi' & ->)
        |[(i' & j' & Hi' & Hj' & Hij' & ->)| ->]]];
  cbn in Heq;
  try done;
  try (apply start_var_inj in Heq; by subst);
  try (apply end_var_inj in Heq; by subst);
  try (apply succ_var_inj in Heq as [-> ->]; done);
  exfalso;
  first
    [ by (eapply start_var_not_end; [|exact Heq]; lia)
    | by (eapply start_var_not_end; [|symmetry; exact Heq]; lia)
    | by (eapply start_var_not_empty; [|exact Heq]; lia)
    | by (eapply start_var_not_empty; [|symmetry; exact Heq]; lia)
    | by (eapply end_var_not_empty; [|exact Heq]; lia)
    | by (eapply end_var_not_empty; [|symmetry; exact Heq]; lia)
    | by (eapply succ_var_not_start; [| | |exact Heq]; done)
    | by (eapply succ_var_not_start; [| | |symmetry; exact Heq]; done)
    | by (eapply succ_var_not_end; [| | |exact Heq]; done)
    | by (eapply succ_var_not_end; [| | |symmetry; exact Heq]; done)
    | by (eapply succ_var_not_empty; [| | |exact Heq]; done)
    | by (eapply succ_var_not_empty; [| | |symmetry; exact Heq]; done) ].
Qed.

Lemma fresh_lit_arc t :
  t ∈ arcs → base ≤ lit_var t.2 →
  filter (λ t' : ArcT, lit_var t'.2 = lit_var t.2) arcs = [t].
Proof.
  intros Ht Hfresh. apply filter_unique; [|done|done|].
  - eapply NoDup_fmap_1, all_arcs_NoDup_ends.
  - intros t' Ht' Heq. symmetry. by apply fresh_lit_one_arc.
Qed.
End Attached.

(** What a successful run posts and creates, in closed form. *)
Lemma rank_tasks_with_circuit_posted starts durations presences ranks m u m' :
  rank_tasks_with_circuit starts durations presences ranks m = Ok u m' →
  let n := length starts in
  let base := length (bool_vars m) in
  posted m m' = all_cts starts durations presences ranks n base ∧
  circuit_arcs (posted m m') = all_arcs presences n base ∧
  created m m' = all_names n ∧
  length (bool_vars m') = base + n * (n + 1) + 1 ∧
  n ≤ length presences.
Proof.
  intros Hrun n base.
  apply rank_tasks_with_circuit_Ok in Hrun as (Hok & Hbv & Hcs).
  assert (posted m m' = all_cts starts durations presences ranks n base)
    as Hposted by (unfold posted; by rewrite Hcs, drop_app_length).
  split; [done|]. split; [rewrite Hposted; apply circuit_arcs_all_cts|].
  split; [unfold created; by rewrite Hbv, drop_app_length|].
  unfold subscripts_ok in Hok.
  rewrite !andb_true_iff, !bool_decide_eq_true in Hok.
  destruct Hok as [[Hr Hp] Hd]. split; [|done]. subst n base.
  rewrite Hbv, length_app. unfold all_names.
  rewrite length_app,
    (task_names_total starts durations presences ranks Hr Hp Hd
       (length starts) 0) by done.
  cbn. lia.
Qed.

Lemma presences_in_model (presences : list lit) n base :
  n ≤ length presences →
  Forall (λ p, lit_var p < base) presences →
  ∀ i, i < n → lit_var (presences !!! i) < base.
Proof.
  intros Hn Hall i Hi.
  apply (proj1 (Forall_forall _ _) Hall), list_elem_of_lookup.
  exists i. apply list_lookup_lookup_total_lt. lia.
Qed.

(** ** The constraints of each kind of arc *)

(** C3. For two distinct tasks [i] and [j] the arc from node [i + 1] to
    node [j + 1] carries a literal created by the call, found on no other
    arc, and the constraints conditioned on that literal are exactly two:
    [ranks[j] == ranks[i] + 1], and the inequality
    [starts[j] >= starts[i] + durations[i]]. *)
Theorem successor_literal_constraints starts durations presences ranks m m'
    i j :
  rank_tasks_with_circuit starts durations presences ranks m = Ok tt m' →
  Forall (λ p, lit_var p < length (bool_vars m)) presences →
  i < length starts → j < length starts → i ≠ j →
  ∃ v,
    length (bool_vars m) ≤ v < length (bool_vars m') ∧
    filter (λ t : ArcT, t.1 = (i + 1, j + 1)) (circuit_arcs (posted m m'))
      = [(i + 1, j + 1, Pos v)] ∧
    filter (λ t : ArcT, lit_var t.2 = v) (circuit_arcs (posted m m'))
      = [(i + 1, j + 1, Pos v)] ∧
    filter (λ c, conditioned_on (Pos v) c = true) (posted m m')
      = [enforced (Pos v)
           (Eq (EVar (ranks !!! j)) (EAdd (EVar (ranks !!! i)) (EConst 1)));
         enforced (Pos v)
           (Ge (EVar (starts !!! j))
               (EAdd (EVar (starts !!! i)) (EConst (durations !!! i))))].
Proof.
  intros Hrun Hold Hi Hj Hij.
  apply rank_tasks_with_circuit_posted in Hrun
    as (Hposted & Harcs & _ & Hlen & Hp).
  pose proof (presences_in_model _ _ _ Hp Hold) as Hold'.
  set (n := length starts) in *. set (base := length (bool_vars m)) in *.
  destruct (succ_var_slot n base i j) as (o & Eo & Ho & _); [done..|].
  exists (succ_var n base i j). rewrite Harcs, Hposted.
  assert ((i + 1, j + 1, Pos (succ_var n base i j))
          ∈ all_arcs presences n base) as Hin.
  { assert ((i + 1, j + 1, arc_lit presences n base (i + 1) (j + 1))
            ∈ all_arcs presences n base) as Hin
      by (apply arc_lit_elem; lia).
    rewrite !Nat.add_1_r in *. cbn [arc_lit] in Hin.
    by rewrite pair_arc_lit_succ in Hin. }
  split; [|split; [|split]].
  - rewrite Hlen, Eo. split; [lia|]. nia.
  - rewrite all_arcs_at by lia. rewrite !Nat.add_1_r. cbn [arc_lit].
    by rewrite pair_arc_lit_succ.
  - apply (fresh_lit_arc starts durations presences ranks n base Hold' _ Hin).
    cbn. lia.
  - by apply filter_cts_successor.
Qed.


Lemma sample_presences_old :
  Forall (λ p, lit_var p < length (bool_vars sample_model)) sample_presences.
Proof. repeat constructor. Qed.

Lemma successor_literal_constraints_witness :
  rank_tasks_with_circuit sample_starts sample_durations sample_presences
    sample_ranks sample_model = Ok tt sample_encoded ∧
  Forall (λ p, lit_var p < length (bool_vars sample_model)) sample_presences ∧
  (0 < length sample_starts ∧ 1 < length sample_starts ∧ 0 ≠ 1) ∧
  ∃ v,
    length (bool_vars sample_model) ≤ v < length (bool_vars sample_encoded) ∧
    filter (λ t : ArcT, t.1 = (0 + 1, 1 + 1))
           (circuit_arcs (posted sample_model sample_encoded))
      = [(0 + 1, 1 + 1, Pos v)] ∧
    filter (λ t : ArcT, lit_var t.2 = v)
           (circuit_arcs (posted sample_model sample_encoded))
      = [(0 + 1, 1 + 1, Pos v)] ∧
    filter (λ c, conditioned_on (Pos v) c = true)
           (posted sample_model sample_encoded)
      = [enforced (Pos v)
           (Eq (EVar (sample_ranks !!! 1))
               (EAdd (EVar (sample_ranks !!! 0)) (EConst 1)));
         enforced (Pos v)
           (Ge (EVar (sample_starts !!! 1))
               (EAdd (EVar (sample_starts !!! 0))
                     (EConst (sample_durations !!! 0))))].
Proof.
  split; [exact sample_run|]. split; [exact sample_presences_old|].
  split; [cbn; lia|].
  apply (successor_literal_constraints sample_starts sample_durations
           sample_presences sample_ranks sample_model sample_encoded 0 1
           sample_run sample_presences_old); cbn; lia.
Defined.

(** C4. For every task [i] the arc from the depot to node [i + 1] carries
    a literal created by the call, and the constraints conditioned on it
    are exactly [ranks[i] == 0] and [starts[i] == 0]; the arc from node
    [i + 1] to the depot carries another literal created by the call, and
    no constraint is conditioned on that one. *)
Theorem first_and_last_literals starts durations presences ranks m m' i :
  rank_tasks_with_circuit starts durations presences ranks m = Ok tt m' →
  Forall (λ p, lit_var p < length (bool_vars m)) presences →
  i < length starts →
  ∃ first last,
    length (bool_vars m) ≤ first < length (bool_vars m') ∧
    length (bool_vars m) ≤ last < length (bool_vars m') ∧
    first ≠ last ∧
    filter (λ t : ArcT, t.1 = (0, i + 1)) (circuit_arcs (posted m m'))
      = [(0, i + 1, Pos first)] ∧
    filter (λ c, conditioned_on (Pos first) c = true) (posted m m')
      = [enforced (Pos first) (Eq (EVar (ranks !!! i)) (EConst 0));
         enforced (Pos first) (Eq (EVar (starts !!! i)) (EConst 0))] ∧
    filter (λ t : ArcT, t.1 = (i + 1, 0)) (circuit_arcs (posted m m'))
      = [(i + 1, 0, Pos last)] ∧
    filter (λ c, conditioned_on (Pos last) c = true) (posted m m') = [].
Proof.
  intros Hrun Hold Hi.
  apply rank_tasks_with_circuit_posted in Hrun
    as (Hposted & Harcs & _ & Hlen & Hp).
  pose proof (presences_in_model _ _ _ Hp Hold) as Hold'.
  set (n := length starts) in *. set (base := length (bool_vars m)) in *.
  exists (start_var n base i), (end_var n base i). rewrite Harcs, Hposted.
  split; [|split; [|split; [|split; [|split; [|split]]]]].
  - rewrite Hlen. unfold start_var. split; [lia | nia].
  - rewrite Hlen. unfold end_var. split; [lia | nia].
  - unfold start_var, end_var. lia.
  - rewrite all_arcs_at by lia. by rewrite Nat.add_1_r.
  - by apply filter_cts_first.
  - rewrite all_arcs_at by lia. by rewrite Nat.add_1_r.
  - by apply filter_cts_last.
Qed.

Lemma first_and_last_literals_witness :
  rank_tasks_with_circuit sample_starts sample_durations sample_presences
    sample_ranks sample_model = Ok tt sample_encoded ∧
  Forall (λ p, lit_var p < length (bool_vars sample_model)) sample_presences ∧
  1 < length sample_starts ∧
  ∃ first last,
    length (bool_vars sample_model) ≤ first
      < length (bool_vars sample_encoded) ∧
    length (bool_vars sample_model) ≤ last
      < length (bool_vars sample_encoded) ∧
    first ≠ last ∧
    filter (λ t : ArcT, t.1 = (0, 1 + 1))
           (circuit_arcs (posted sample_model sample_encoded))
      = [(0, 1 + 1, Pos first)] ∧
    filter (λ c, conditioned_on (Pos first) c = true)
           (posted sample_model sample_encoded)
      = [enforced (Pos first) (Eq (EVar (sample_ranks !!! 1)) (EConst 0));
         enforced (Pos first) (Eq (EVar (sample_starts !!! 1)) (EConst 0))] ∧
    filter (λ t : ArcT, t.1 = (1 + 1, 0))
           (circuit_arcs (posted sample_model sample_encoded))
      = [(1 + 1, 0, Pos last)] ∧
    filter (λ c, conditioned_on (Pos last) c = true)
           (posted sample_model sample_encoded) = [].
Proof.
  split; [exact sample_run|]. split; [exact sample_presences_old|].
  split; [cbn; lia|].
  apply (first_and_last_literals sample_starts sample_durations
           sample_presences sample_ranks sample_model sample_encoded 1
           sample_run sample_presences_old); cbn; lia.
Defined.

(** C5. For every task [i] the self-loop of node [i + 1] carries the
    negation of [presences[i]]; [ranks[i] == -1] is posted conditioned on
    that literal; and under any assignment the self-loop is selected
    exactly when the task is absent. *)
Theorem self_loop_is_absence starts durations presences ranks m m' i :
  rank_tasks_with_circuit starts durations presences ranks m = Ok tt m' →
  i < length starts →
  let arcs := circuit_arcs (posted m m') in
  filter (λ t : ArcT, t.1 = (i + 1, i + 1)) arcs
    = [(i + 1, i + 1, Not (presences !!! i))] ∧
  enforced (Not (presences !!! i)) (Eq (EVar (ranks !!! i)) (EConst (-1)))
    ∈ posted m m' ∧
  ∀ a, uses_self_loop (selected a arcs) (i + 1)
       ↔ lit_true a (presences !!! i) = false.
Proof.
  intros Hrun Hi arcs.
  apply rank_tasks_with_circuit_posted in Hrun
    as (Hposted & Harcs & _ & _ & _).
  subst arcs. rewrite Harcs, Hposted. split; [|split].
  - rewrite all_arcs_at by lia. rewrite !Nat.add_1_r. cbn [arc_lit].
    unfold pair_arc. by rewrite decide_True.
  - apply (pair_cts_posted _ _ _ _ _ _ i i); [done..|]. unfold pair_cts.
    rewrite decide_True by done. by apply list_elem_of_singleton.
  - intros a. by apply selected_self_loop.
Qed.

Lemma self_loop_is_absence_witness :
  rank_tasks_with_circuit sample_starts sample_durations sample_presences
    sample_ranks sample_model = Ok tt sample_encoded ∧
  2 < length sample_starts ∧
  let arcs := circuit_arcs (posted sample_model sample_encoded) in
  filter (λ t : ArcT, t.1 = (2 + 1, 2 + 1)) arcs
    = [(2 + 1, 2 + 1, Not (sample_presences !!! 2))] ∧
  enforced (Not (sample_presences !!! 2))
           (Eq (EVar (sample_ranks !!! 2)) (EConst (-1)))
    ∈ posted sample_model sample_encoded ∧
  ∀ a, uses_self_loop (selected a arcs) (2 + 1)
       ↔ lit_true a (sample_presences !!! 2) = false.
Proof.
  split; [exact sample_run|]. split; [cbn; lia|].
  apply (self_loop_is_absence sample_starts sample_durations
           sample_presences sample_ranks sample_model sample_encoded 2
           sample_run).
  cbn; lia.
Defined.

Lemma task_names_not_empty n i s : s ∈ task_names n i → s ≠ "empty".
Proof.
  unfold task_names. rewrite elem_of_app, !elem_of_cons, elem_of_nil.
  rewrite elem_of_flat_map.
  intros [[->|[->|[]]]|(j & _ & Hs)]; [done.. |].
  unfold pair_names in Hs. case_decide; [by apply elem_of_nil in Hs|].
  by apply list_elem_of_singleton in Hs as ->.
Qed.

(** Every literal the call creates sits on one of the arcs. *)
Lemma created_lit_on_arc presences n base v :
  base ≤ v ≤ empty_var n base → Pos v ∈ (all_arcs presences n base).*2.
Proof.
  intros Hv.
  assert (∀ u w, u ≤ n → w ≤ n → arc_lit presences n base u w = Pos v →
                 Pos v ∈ (all_arcs presences n base).*2) as Hon.
  { intros u w Hu Hw <-. apply list_elem_of_fmap.
    exists (u, w, arc_lit presences n base u w). split; [done|].
    by apply arc_lit_elem. }
  destruct (decide (v = empty_var n base)) as [->|Hne].
  { apply (Hon 0 0); [lia | lia | done]. }
  unfold empty_var in *.
  pose proof (Nat.div_mod_eq (v - base) (n + 1)) as Hdm.
  pose proof (Nat.mod_upper_bound (v - base) (n + 1)) as Ho.
  set (i := (v - base) / (n + 1)) in *.
  set (o := (v - base) `mod` (n + 1)) in *.
  assert (o < n + 1) as Ho' by (apply Ho; lia). clear Ho.
  assert (i < n) as Hi by nia.
  destruct (decide (o = 0)) as [Ho0|Ho0].
  { apply (Hon 0 (S i)); [lia | lia |]. cbn. unfold start_var. f_equal. nia. }
  destruct (decide (o = 1)) as [Ho1|Ho1].
  { apply (Hon (S i) 0); [lia | lia |]. cbn. unfold end_var. f_equal. nia. }
  destruct (decide (o - 2 < i)) as [Hlt|Hge].
  - apply (Hon (S i) (S (o - 2))); [lia | lia |]. cbn. unfold pair_arc.
    rewrite decide_False by lia. cbn. unfold succ_var.
    rewrite decide_True by lia. f_equal. nia.
  - apply (Hon (S i) (S (o - 1))); [lia | lia |]. cbn. unfold pair_arc.
    rewrite decide_False by lia. cbn. unfold succ_var.
    rewrite decide_False by lia. f_equal. nia.
Qed.

(** C6. The per-task loop completes with the arcs it has collected.  The
    call then creates the literal [empty], its last and its only one of
    that name, and appends the depot self-loop that carries it.  It posts
    one implication [empty => not presences[i]] for every task and, last
    of all, one circuit constraint over exactly the collected arcs and the
    depot self-loop.  These arcs are complete: one for each ordered pair of
    the nodes [0 .. n], and every literal the call has created is on one of
    them. *)
Theorem empty_literal_then_circuit starts durations presences ranks m m' :
  rank_tasks_with_circuit starts durations presences ranks m = Ok tt m' →
  let n := length starts in
  let all_tasks := seq 0 n in
  ∃ collected m1 empty,
    for_each all_tasks
      (rank_task starts durations presences ranks all_tasks) [] m
      = Ok collected m1 ∧
    let arcs := collected ++ [(0, 0, Pos empty)] in
    empty = length (bool_vars m1) ∧
    length (bool_vars m) ≤ empty ∧
    bool_vars m' = bool_vars m1 ++ ["empty"] ∧
    filter (λ s, s = "empty") (created m m') = ["empty"] ∧
    filter (λ t : ArcT, t.1 = (0, 0)) arcs = [(0, 0, Pos empty)] ∧
    length arcs = (n + 1) ^ 2 ∧
    (∀ u w, u ≤ n → w ≤ n →
            ∃ l, filter (λ t : ArcT, t.1 = (u, w)) arcs = [(u, w, l)]) ∧
    (∀ v, length (bool_vars m) ≤ v < length (bool_vars m') →
          Pos v ∈ arcs.*2) ∧
    Forall (λ c, ∃ l ct, c = enforced l ct) (posted m m1) ∧
    posted m m'
      = posted m m1
        ++ map (λ i, mkConstraint []
                       (Implication (Pos empty) (Not (presences !!! i))))
               all_tasks
        ++ [mkConstraint [] (Circuit arcs)].
Proof.
  intros Hrun n all_tasks.
  pose proof (rank_tasks_with_circuit_Ok _ _ _ _ _ _ _ Hrun)
    as (Hok & Hbv & Hcs).
  apply rank_tasks_with_circuit_posted in Hrun
    as (Hposted & _ & Hcreated & Hlen & _).
  fold n in Hposted, Hcreated, Hlen, Hbv, Hcs.
  set (base := length (bool_vars m)) in *.
  unfold subscripts_ok in Hok. fold n in Hok.
  rewrite !andb_true_iff, !bool_decide_eq_true in Hok.
  destruct Hok as [[Hr Hp] Hd].
  pose proof (rank_all_tasks_run starts durations presences ranks base
                Hr Hp Hd n 0 [] m) as Hloop.
  fold n in Hloop. cbn [app] in Hloop.
  assert (length (flat_map (task_names n) (seq 0 n)) = n * (n + 1)) as Hnames.
  { apply (f_equal length) in Hbv. unfold all_names in Hbv.
    rewrite !length_app in Hbv. cbn in Hbv. lia. }
  eexists _, _, (empty_var n base).
  split; [apply Hloop; [lia | unfold start_var; lia]|].
  cbn [bool_vars constraints].
  change (flat_map (task_arcs presences n base) (seq 0 n)
            ++ [(0, 0, Pos (empty_var n base))])
    with (all_arcs presences n base).
  split; [rewrite length_app, Hnames; unfold empty_var; lia|].
  split; [unfold empty_var; lia|].
  split; [by rewrite Hbv; unfold all_names; rewrite app_assoc|].
  split; [|split; [|split; [|split; [|split; [|split]]]]].
  - rewrite Hcreated. unfold all_names. rewrite filter_app, filter_none; [done|].
    intros s Hs. apply elem_of_flat_map in Hs as (i & _ & Hs).
    by apply task_names_not_empty in Hs.
  - by rewrite all_arcs_at by lia.
  - apply all_arcs_length.
  - intros u w Hu Hw. eexists. by apply all_arcs_at.
  - intros v Hv. apply created_lit_on_arc. unfold empty_var. lia.
  - rewrite posted_app. apply Forall_forall. intros c Hc.
    apply elem_of_flat_map in Hc as (i & _ & Hc).
    by apply task_cts_linear in Hc.
  - by rewrite Hposted, posted_app.
Qed.

Lemma empty_literal_then_circuit_witness :
  rank_tasks_with_circuit sample_starts sample_durations sample_presences
    sample_ranks sample_model = Ok tt sample_encoded ∧
  let n := length sample_starts in
  let all_tasks := seq 0 n in
  ∃ collected m1 empty,
    for_each all_tasks
      (rank_task sample_starts sample_durations sample_presences
         sample_ranks all_tasks) [] sample_model
      = Ok collected m1 ∧
    let arcs := collected ++ [(0, 0, Pos empty)] in
    empty = length (bool_vars m1) ∧
    length (bool_vars sample_model) ≤ empty ∧
    bool_vars sample_encoded = bool_vars m1 ++ ["empty"] ∧
    filter (λ s, s = "empty") (created sample_model sample_encoded)
      = ["empty"] ∧
    filter (λ t : ArcT, t.1 = (0, 0)) arcs = [(0, 0, Pos empty)] ∧
    length arcs = (n + 1) ^ 2 ∧
    (∀ u w, u ≤ n → w ≤ n →
            ∃ l, filter (λ t : ArcT, t.1 = (u, w)) arcs = [(u, w, l)]) ∧
    (∀ v, length (bool_vars sample_model) ≤ v
          < length (bool_vars sample_encoded) →
          Pos v ∈ arcs.*2) ∧
    Forall (λ c, ∃ l ct, c = enforced l ct) (posted sample_model m1) ∧
    posted sample_model sample_encoded
      = posted sample_model m1
        ++ map (λ i, mkConstraint []
                       (Implication (Pos empty)
                                    (Not (sample_presences !!! i))))
               all_tasks
        ++ [mkConstraint [] (Circuit arcs)].
Proof.
  split; [exact sample_run|].
  exact (empty_literal_then_circuit sample_starts sample_durations
           sample_presences sample_ranks sample_model sample_encoded
           sample_run).
Defined.

(** ** What the posted constraints mention *)

Lemma Not_involutive l : Not (Not l) = l.
Proof. by destruct l. Qed.

Lemma lookup_total_in_take {A} `{Inhabited A} (xs : list A) n i :
  i < n → n ≤ length xs → xs !!! i ∈ take n xs.
Proof.
  intros Hi Hn. apply list_elem_of_lookup. exists i.
  rewrite lookup_take_lt by done. apply list_lookup_lookup_total_lt. lia.
Qed.

Ltac forall_list :=
  cbn; repeat (apply Forall_cons; split); try apply Forall_nil_2.

Section Mentions.
Variables (starts : list ivar) (durations : list Z)
        (presences : list lit) (ranks : list ivar).
Variables (n base : nat).
Hypothesis Hstarts : n ≤ length starts.
Hypothesis Hranks : n ≤ length ranks.
Hypothesis Hpresences : n ≤ length presences.

(** A variable or literal of the first [n] entries, or a literal the
  encoder created. *)
Let ivar_ok (v : ivar) : Prop := v ∈ take n starts ∨ v ∈ take n ranks.
Let lit_ok (l : lit) : Prop := base ≤ lit_var l ∨ Not l ∈ take n presences.

Lemma start_ok i : i < n → ivar_ok (starts !!! i).
Proof. intros Hi. left. by apply lookup_total_in_take. Qed.

Lemma rank_ok i : i < n → ivar_ok (ranks !!! i).
Proof. intros Hi. right. by apply lookup_total_in_take. Qed.

Lemma absence_ok i : i < n → lit_ok (Not (presences !!! i)).
Proof.
intros Hi. right. rewrite Not_involutive. by apply lookup_total_in_take.
Qed.

Lemma pair_arc_ok i j :
i < n → lit_ok (pair_arc presences n base i j).2.
Proof.
intros Hi. unfold pair_arc. case_decide; cbn [snd].
- by apply absence_ok.
- left. unfold succ_var. cbn. lia.
Qed.

Lemma all_arcs_ok t : t ∈ all_arcs presences n base → lit_ok t.2.
Proof.
intros Ht. apply elem_of_all_arcs in Ht
  as [(i & Hi & [->|[->|(j & Hj & ->)]])| ->].
- left. unfold start_var. cbn. lia.
- left. unfold end_var. cbn. lia.
- by apply pair_arc_ok.
- left. unfold empty_var. cbn. lia.
Qed.

Lemma all_cts_mention c :
c ∈ all_cts starts durations presences ranks n base →
Forall ivar_ok (constraint_ivars c) ∧ Forall lit_ok (constraint_lits c).
Proof.
unfold all_cts. rewrite !elem_of_app, list_elem_of_singleton.
intros [Hc|[Hc| ->]].
- apply elem_of_flat_map in Hc as (i & Hi%elem_of_seq & Hc).
  unfold task_cts in Hc.
  rewrite elem_of_app, !elem_of_cons, elem_of_nil, elem_of_flat_map in Hc.
  assert (lit_ok (Pos (start_var n base i))) as Hstart
    by (left; unfold start_var; cbn; lia).
  destruct Hc as [[->|[->|[]]]|(j & Hj%elem_of_seq & Hc)].
  + split; forall_list; [apply rank_ok; lia | done].
  + split; forall_list; [apply start_ok; lia | done].
  + pose proof (pair_arc_ok i j ltac:(lia)) as Hpair.
    unfold pair_cts in Hc. unfold pair_arc in Hpair.
    case_decide; cbn [snd] in Hpair;
      rewrite !elem_of_cons, elem_of_nil in Hc;
      destruct Hc as [->|Hc]; try destruct Hc as [->|[]];
      (split; forall_list;
       first [apply rank_ok; lia | apply start_ok; lia | done]).
- unfold empty_cts in Hc.
  apply list_elem_of_fmap in Hc as (i & -> & Hi%elem_of_seq).
  split; forall_list.
  + left. unfold empty_var. cbn. lia.
  + apply absence_ok. lia.
- split; [constructor|]. cbn. apply Forall_fmap, Forall_forall.
  intros t Ht. by apply all_arcs_ok.
Qed.
End Mentions.

(** C10. The number of tasks is [len(starts)] alone.  When the other
    sequences are at least that long the encoder completes, and what it
    leaves in the model is what it leaves when they are cut down to their
    first [len(starts)] elements: the elements beyond are not read.  Nor are
    they mentioned: a posted constraint mentions only start and rank
    variables among the first [len(starts)], and only literals that the call
    created or that negate one of the first [len(starts)] presences. *)
Theorem longer_sequences_ignored starts durations presences ranks m :
  let n := length starts in
  n ≤ length durations → n ≤ length presences → n ≤ length ranks →
  ∃ m',
    rank_tasks_with_circuit starts durations presences ranks m = Ok tt m' ∧
    rank_tasks_with_circuit starts (take n durations) (take n presences)
      (take n ranks) m = Ok tt m' ∧
    Forall
      (λ c,
         Forall (λ v, v ∈ starts ∨ v ∈ take n ranks) (constraint_ivars c) ∧
         Forall (λ l, length (bool_vars m) ≤ lit_var l
                      ∨ Not l ∈ take n presences)
                (constraint_lits c))
      (posted m m').
Proof.
  intros n Hd Hp Hr.
  rewrite (rank_tasks_with_circuit_run starts durations presences ranks
             (length (bool_vars m)) Hr Hp (λ _, Hd) m eq_refl).
  eexists. split; [done|]. split.
  - assert (length starts ≤ length (take n ranks)) as Hr'
      by (rewrite length_take; lia).
    assert (length starts ≤ length (take n presences)) as Hp'
      by (rewrite length_take; lia).
    assert (length starts ≤ length (take n durations)) as Hd'
      by (rewrite length_take; lia).
    rewrite (rank_tasks_with_circuit_run starts (take n durations)
               (take n presences) (take n ranks) (length (bool_vars m))
               Hr' Hp' (λ _, Hd') m eq_refl).
    do 3 f_equal. fold n.
    apply all_cts_ext; intros i Hi; rewrite lookup_total_take;
      by rewrite decide_True by lia.
  - rewrite posted_app. apply Forall_forall. intros c Hc. fold n in Hc.
    pose proof (all_cts_mention starts durations presences ranks n
                  (length (bool_vars m)) (Nat.le_refl _) Hr Hp c Hc) as Hm.
    cbv zeta in Hm. by rewrite (take_ge starts n) in Hm by done.
Qed.

Lemma longer_sequences_ignored_witness :
  let starts := [0; 1] in
  let durations := [1; 2; 30; 40]%Z in
  let presences := [Pos 0; Pos 1; Pos 7] in
  let ranks := [2; 3; 9; 9; 9] in
  let m := mkModel ["presence[0]"; "presence[1]"] [] in
  (length starts ≤ length durations ∧ length starts ≤ length presences ∧
   length starts ≤ length ranks) ∧
  ∃ m',
    rank_tasks_with_circuit starts durations presences ranks m = Ok tt m' ∧
    rank_tasks_with_circuit starts [1; 2]%Z [Pos 0; Pos 1] [2; 3] m
      = Ok tt m' ∧
    Forall
      (λ c,
         Forall (λ v, v ∈ starts ∨ v ∈ [2; 3]) (constraint_ivars c) ∧
         Forall (λ l, length (bool_vars m) ≤ lit_var l
                      ∨ Not l ∈ [Pos 0; Pos 1])
                (constraint_lits c))
      (posted m m').
Proof.
  intros starts durations presences ranks m.
  split; [cbn; lia|].
  apply (longer_sequences_ignored starts durations presences ranks m);
    cbn; lia.
Defined.

(** ** Ranks follow start times *)

Section Order.
Variables (starts : list ivar) (durations : list Z)
          (presences : list lit) (ranks : list ivar).
Variables (n base : nat).
Variable a : assignment.

Let arcs := all_arcs presences n base.
Let cts := all_cts starts durations presences ranks n base.
Let sel := selected a arcs.
Let rank (i : nat) : Z := ival a (ranks !!! i).
Let start (i : nat) : Z := ival a (starts !!! i).
Let dur (i : nat) : Z := durations !!! i.
Let present (i : nat) : bool := lit_true a (presences !!! i).

Hypothesis Hsol : Forall (constraint_sat a) cts.

Lemma selected_first_start v :
  (0, v) ∈ sel → v ≠ 0 →
  ∃ i, i < n ∧ v = i + 1 ∧ rank i = 0%Z ∧ start i = 0%Z.
Proof.
  intros H Hv. apply selected_cases in H.
  destruct H as [?|[(i&?&?&?&?)|[(?&?)|[(?&?)|(?&?&?)]]]]; try lia.
  exists i. split; [done|]. split; [done|]. split.
  - by eapply first_rank.
  - by eapply first_start.
Qed.

Lemma selected_successor_start u v :
  (u, v) ∈ sel → u ≠ 0 → v ≠ 0 → u ≠ v →
  ∃ i j, i < n ∧ j < n ∧ u = i + 1 ∧ v = j + 1 ∧
         rank j = (rank i + 1)%Z ∧ (start i + dur i ≤ start j)%Z.
Proof.
  intros H Hu Hv Huv. apply selected_cases in H.
  destruct H as [?|[(?&?)|[(?&?)|[(?&?)|(i&j&?&?&?&?&?&?)]]]]; try lia.
  exists i, j. repeat (split; [done|]). split.
  - by eapply successor_rank.
  - by eapply successor_start.
Qed.

(** Along a selected path between task nodes every node starts after its
    predecessor has ended. *)
Lemma path_chain l : ∀ u w,
  path sel u l w → NoDup (u :: l) → 0 ∉ u :: l →
  ∀ k x y, (u :: l) !! k = Some x → l !! k = Some y →
           (rank (y - 1) = rank (x - 1) + 1)%Z ∧
           (start (x - 1) + dur (x - 1) ≤ start (y - 1))%Z.
Proof.
  induction l as [|z l IH]; intros u w Hpath Hnd H0 k x y Hx Hy; [done|].
  destruct Hpath as [Hz Hpath].
  apply NoDup_cons in Hnd as [Hu Hnd].
  apply not_elem_of_cons in H0 as [Hu0 H0].
  destruct k as [|k]; cbn in Hx, Hy.
  - injection Hx as <-. injection Hy as <-.
    apply not_elem_of_cons in Hu as [Huz _].
    pose proof H0 as Hz0. apply not_elem_of_cons in Hz0 as [Hz0 _].
    destruct (selected_successor_start _ _ Hz) as (i & j & _ & _ & -> & -> & ?);
      [lia | lia | done|].
    by replace (i + 1 - 1) with i by lia; replace (j + 1 - 1) with j by lia.
  - by apply (IH z w Hpath Hnd H0 k).
Qed.

(** The present tasks in the order the circuit visits them, with what the
    gated constraints say along the way: ranks count from zero, the first
    task starts at zero, and each task starts after its predecessor has
    ended. *)
Lemma visit_chain :
  circuit_sat a arcs →
  ∃ ts : list nat,
    NoDup ts ∧
    (∀ i, i ∈ ts ↔ i < n ∧ present i = true) ∧
    (∀ k i, ts !! k = Some i → rank i = Z.of_nat k) ∧
    (∀ i, ts !! 0 = Some i → start i = 0%Z) ∧
    (∀ k i j, ts !! k = Some i → ts !! S k = Some j →
              (start i + dur i ≤ start j)%Z).
Proof.
  intros [_ Hshape].
  assert (uses_self_loop sel 0 →
          ∃ ts : list nat,
            NoDup ts ∧ (∀ i, i ∈ ts ↔ i < n ∧ present i = true) ∧
            (∀ k i, ts !! k = Some i → rank i = Z.of_nat k) ∧
            (∀ i, ts !! 0 = Some i → start i = 0%Z) ∧
            (∀ k i j, ts !! k = Some i → ts !! S k = Some j →
                      (start i + dur i ≤ start j)%Z)) as Hempty.
  { intros H0. exists []. split; [constructor|]. split; [|done].
    intros i. rewrite elem_of_nil. split; [done|]. intros [Hi Hp].
    pose proof (selected_depot_loop starts durations presences ranks n base a
                  Hsol i H0 Hi) as Hq.
    unfold present in Hp. congruence. }
  destruct Hshape as [(c & Hc & Hon)|Hloops];
    [|by apply Hempty, Hloops, depot_is_node].
  destruct (decide (0 ∈ c)) as [H0|H0].
  2:{ apply Hempty. destruct (decide (uses_self_loop sel 0)); [done|].
      exfalso. apply H0. by apply (Hon 0 (depot_is_node _ _ _)). }
  destruct (simple_cycle_rotate _ _ _ Hc H0) as (l & Hpath & Hnd & Hperm).
  assert (∀ x, x ∈ l → x ≠ 0 ∧ x ≤ n ∧ present (x - 1) = true) as Hl.
  { intros x Hx.
    assert (x ≠ 0) as Hx0.
    { intros ->. by apply NoDup_cons in Hnd as [? _]. }
    assert (x ∈ c) as Hxc by (rewrite <- Hperm; by apply elem_of_cons; right).
    assert (x ≤ n) as Hxn.
    { apply list_elem_of_split in Hx as (l1 & l2 & ->).
      apply path_app in Hpath as [_ Hout].
      destruct l2; cbn in Hout;
        [|destruct Hout as [Hout _]]; by apply selected_bound in Hout as [? _]. }
    split; [done|]. split; [done|].
    assert (x - 1 < n) as Hi by lia.
    destruct (present (x - 1)) eqn:Hp; [done|]. unfold present in Hp.
    apply (selected_self_loop presences n base a (x - 1) Hi) in Hp.
    replace (x - 1 + 1) with x in Hp by lia.
    assert (x ∈ nodes arcs) as Hnode.
    { replace x with (x - 1 + 1) by lia. by apply task_is_node. }
    by apply (Hon x Hnode) in Hxc. }
  assert (0 ∉ l) as Hl0 by (intros Hin; by apply Hl in Hin as [? _]).
  pose proof Hnd as Hnd'. apply NoDup_cons in Hnd' as [_ Hndl].
  exists (Nat.pred <$> l). split; [|split; [|split; [|split]]].
  - apply NoDup_fmap_2_strong; [|done].
    intros x y Hx Hy. apply Hl in Hx, Hy. lia.
  - intros i. rewrite list_elem_of_fmap. split.
    + intros (x & -> & Hx). apply Hl in Hx as (? & ? & Hp).
      replace (x - 1) with (Nat.pred x) in Hp by lia. split; [lia | done].
    + intros [Hi Hp]. exists (i + 1). split; [lia|].
      assert (i + 1 ∈ c) as Hic.
      { apply (Hon _ (task_is_node _ _ _ i Hi)). intros Hloop.
        apply (selected_self_loop _ _ _ _ i Hi) in Hloop.
        unfold present in Hp. congruence. }
      rewrite <- Hperm in Hic. apply elem_of_cons in Hic as [?|?]; [lia | done].
  - intros k i Hk. apply list_lookup_fmap_Some in Hk as (x & -> & Hk).
    destruct l as [|y l]; [done|]. destruct Hpath as [Hy Hpath].
    destruct (selected_first_start _ Hy) as (j & Hj & -> & Hrj & _);
      [by apply not_elem_of_cons in Hl0 as [? _]|].
    destruct k as [|k]; cbn in Hk.
    + injection Hk as <-. by replace (Nat.pred (j + 1)) with j by lia.
    + replace (Nat.pred x) with (x - 1) by lia.
      pose proof (path_ranks starts durations presences ranks n base a Hsol
                    l (j + 1) 0 j 0%Z Hpath Hndl Hl0 eq_refl Hrj k x Hk)
        as Hr.
      unfold rank. lia.
  - intros i Hi. apply list_lookup_fmap_Some in Hi as (x & -> & Hx).
    destruct l as [|y l]; [done|]. destruct Hpath as [Hy Hpath].
    injection Hx as ->.
    destruct (selected_first_start _ Hy) as (j & Hj & -> & _ & Hs);
      [by apply not_elem_of_cons in Hl0 as [? _]|].
    by replace (Nat.pred (j + 1)) with j by lia.
  - intros k i j Hi Hj.
    apply list_lookup_fmap_Some in Hi as (x & -> & Hx).
    apply list_lookup_fmap_Some in Hj as (y & -> & Hy).
    destruct l as [|z l]; [done|]. destruct Hpath as [_ Hpath]. cbn in Hy.
    destruct (path_chain l z 0 Hpath Hndl Hl0 k x y Hx Hy) as [_ Hle].
    by replace (Nat.pred x) with (x - 1) by lia;
       replace (Nat.pred y) with (y - 1) by lia.
Qed.
End Order.

(** The visit order of a solution of the model a successful run leaves
    behind. *)
Lemma solution_chain starts durations presences ranks m u m' a :
  rank_tasks_with_circuit starts durations presences ranks m = Ok u m' →
  solution a m' →
  ∃ ts : list nat,
    NoDup ts ∧
    (∀ i, i ∈ ts ↔ i < length starts ∧ lit_true a (presences !!! i) = true) ∧
    (∀ k i, ts !! k = Some i → ival a (ranks !!! i) = Z.of_nat k) ∧
    (∀ i, ts !! 0 = Some i → ival a (starts !!! i) = 0%Z) ∧
    (∀ k i j, ts !! k = Some i → ts !! S k = Some j →
              (ival a (starts !!! i) + durations !!! i
               ≤ ival a (starts !!! j))%Z).
Proof.
  intros Hrun Hsol.
  destruct (solution_posted _ _ _ _ _ _ _ _ Hrun Hsol) as [Hcts Hcirc].
  exact (visit_chain _ _ _ _ _ _ _ Hcts Hcirc).
Qed.

(** A present task sits in the visit order at the position its rank
    says. *)
Lemma present_position (starts : list ivar) (presences : list lit)
    (ranks : list ivar) a (ts : list nat) i :
  (∀ i, i ∈ ts ↔ i < length starts ∧ lit_true a (presences !!! i) = true) →
  (∀ k i, ts !! k = Some i → ival a (ranks !!! i) = Z.of_nat k) →
  i < length starts → lit_true a (presences !!! i) = true →
  ts !! Z.to_nat (ival a (ranks !!! i)) = Some i.
Proof.
  intros Hin Hrk Hi Hp.
  assert (i ∈ ts) as Hits by (by apply Hin).
  apply list_elem_of_lookup in Hits as [k Hk].
  rewrite (Hrk k i Hk). by rewrite Nat2Z.id.
Qed.

(** X1. In every solution, if two present tasks have consecutive ranks,
    the later one starts no earlier than the end of the earlier one. *)
Theorem consecutive_ranks_do_not_overlap starts durations presences ranks
    m m' a i j :
  rank_tasks_with_circuit starts durations presences ranks m = Ok tt m' →
  solution a m' →
  i < length starts → j < length starts →
  lit_true a (presences !!! i) = true →
  lit_true a (presences !!! j) = true →
  ival a (ranks !!! j) = (ival a (ranks !!! i) + 1)%Z →
  (ival a (starts !!! i) + durations !!! i ≤ ival a (starts !!! j))%Z.
Proof.
  intros Hrun Hsol Hi Hj Hpi Hpj Hrk.
  destruct (solution_chain _ _ _ _ _ _ _ _ Hrun Hsol)
    as (ts & _ & Hin & Hpos & _ & Hchain).
  pose proof (present_position _ _ _ _ _ i Hin Hpos Hi Hpi) as Hki.
  pose proof (present_position _ _ _ _ _ j Hin Hpos Hj Hpj) as Hkj.
  apply (Hchain (Z.to_nat (ival a (ranks !!! i)))); [done|].
  assert (0 ≤ ival a (ranks !!! i))%Z as Hnn.
  { assert (i ∈ ts) as Hits by (by apply Hin).
    apply list_elem_of_lookup in Hits as [k Hk]. rewrite (Hpos k i Hk). lia. }
  rewrite Hrk in Hkj.
  by replace (S (Z.to_nat (ival a (ranks !!! i))))
    with (Z.to_nat (ival a (ranks !!! i) + 1)) by lia.
Qed.

Lemma consecutive_ranks_do_not_overlap_witness :
  rank_tasks_with_circuit sample_starts sample_durations sample_presences
    sample_ranks sample_model = Ok tt sample_encoded ∧
  solution sample_assignment sample_encoded ∧
  (0 < length sample_starts ∧ 1 < length sample_starts) ∧
  lit_true sample_assignment (sample_presences !!! 0) = true ∧
  lit_true sample_assignment (sample_presences !!! 1) = true ∧
  ival sample_assignment (sample_ranks !!! 1)
    = (ival sample_assignment (sample_ranks !!! 0%nat) + 1)%Z ∧
  (ival sample_assignment (sample_starts !!! 0%nat)
   + sample_durations !!! 0%nat
   ≤ ival sample_assignment (sample_starts !!! 1%nat))%Z.
Proof.
  split; [exact sample_run|]. split; [exact sample_solution|].
  split; [cbn; lia|]. split; [reflexivity|]. split; [reflexivity|].
  split; [reflexivity|].
  apply (consecutive_ranks_do_not_overlap sample_starts sample_durations
           sample_presences sample_ranks sample_model sample_encoded
           sample_assignment 0 1 sample_run sample_solution);
    (reflexivity || (cbn; lia)).
Defined.

(** X2. In every solution the present task of rank zero starts at time
    zero. *)
Theorem first_task_starts_at_zero starts durations presences ranks m m' a i :
  rank_tasks_with_circuit starts durations presences ranks m = Ok tt m' →
  solution a m' →
  i < length starts →
  lit_true a (presences !!! i) = true →
  ival a (ranks !!! i) = 0%Z →
  ival a (starts !!! i) = 0%Z.
Proof.
  intros Hrun Hsol Hi Hp Hrk.
  destruct (solution_chain _ _ _ _ _ _ _ _ Hrun Hsol)
    as (ts & _ & Hin & Hpos & Hfirst & _).
  pose proof (present_position _ _ _ _ _ i Hin Hpos Hi Hp) as Hk.
  rewrite Hrk in Hk. by apply Hfirst.
Qed.

Lemma first_task_starts_at_zero_witness :
  rank_tasks_with_circuit sample_starts sample_durations sample_presences
    sample_ranks sample_model = Ok tt sample_encoded ∧
  solution sample_assignment sample_encoded ∧
  0 < length sample_starts ∧
  lit_true sample_assignment (sample_presences !!! 0) = true ∧
  ival sample_assignment (sample_ranks !!! 0) = 0%Z ∧
  ival sample_assignment (sample_starts !!! 0) = 0%Z.
Proof.
  split; [exact sample_run|]. split; [exact sample_solution|].
  split; [cbn; lia|]. split; [reflexivity|]. split; [reflexivity|].
  apply (first_task_starts_at_zero sample_starts sample_durations
           sample_presences sample_ranks sample_model sample_encoded
           sample_assignment 0 sample_run sample_solution);
    (reflexivity || (cbn; lia)).
Defined.

(** With positive durations a task that is visited later starts after the
    earlier one has ended. *)
Lemma chain_later_starts_after (start dur : nat → Z) (ts : list nat) :
  (∀ i, i ∈ ts → 0 < dur i)%Z →
  (∀ k i j, ts !! k = Some i → ts !! S k = Some j →
            (start i + dur i ≤ start j)%Z) →
  ∀ k2 k1 i j, k1 < k2 → ts !! k1 = Some i → ts !! k2 = Some j →
               (start i + dur i ≤ start j)%Z.
Proof.
  intros Hpos Hchain. induction k2 as [|k2 IH]; intros k1 i j Hlt Hi Hj; [lia|].
  destruct (decide (k1 = k2)) as [->|Hne]; [by eapply Hchain|].
  assert (is_Some (ts !! k2)) as [x Hx].
  { apply lookup_lt_is_Some. apply lookup_lt_Some in Hj. lia. }
  assert (start i + dur i ≤ start x)%Z by (apply (IH k1); [lia | done..]).
  assert (start x + dur x ≤ start j)%Z by by eapply Hchain.
  assert (0 < dur x)%Z by (apply Hpos; by eapply list_elem_of_lookup_2).
  lia.
Qed.

(** X3. When the durations are positive, as the docstring assumes, the
    ranks order the present tasks by start time: in every solution a
    present task of smaller rank has ended when one of larger rank starts,
    and comparing two ranks is comparing the two start times. *)
Theorem ranks_order_present_tasks_by_start starts durations presences ranks
    m m' a i j :
  rank_tasks_with_circuit starts durations presences ranks m = Ok tt m' →
  solution a m' →
  (∀ t, t < length starts → (0 < durations !!! t)%Z) →
  i < length starts → j < length starts →
  lit_true a (presences !!! i) = true →
  lit_true a (presences !!! j) = true →
  ((ival a (ranks !!! i) < ival a (ranks !!! j))%Z →
   (ival a (starts !!! i) + durations !!! i ≤ ival a (starts !!! j))%Z) ∧
  ((ival a (ranks !!! i) < ival a (ranks !!! j))%Z ↔
   (ival a (starts !!! i) < ival a (starts !!! j))%Z).
Proof.
  intros Hrun Hsol Hdur Hi Hj Hpi Hpj.
  destruct (solution_chain _ _ _ _ _ _ _ _ Hrun Hsol)
    as (ts & _ & Hin & Hpos & _ & Hchain).
  assert (i ∈ ts) as Hits by (by apply Hin).
  assert (j ∈ ts) as Hjts by (by apply Hin).
  apply list_elem_of_lookup in Hits as [ki Hki].
  apply list_elem_of_lookup in Hjts as [kj Hkj].
  rewrite (Hpos ki i Hki), (Hpos kj j Hkj).
  assert (∀ t, t ∈ ts → 0 < durations !!! t)%Z as Hdur'.
  { intros t Ht. apply Hdur. by apply Hin in Ht as [? _]. }
  pose proof (chain_later_starts_after
                (λ t, ival a (starts !!! t)) (λ t, durations !!! t) ts
                Hdur' Hchain) as Hlater. cbn beta in Hlater.
  assert (∀ k1 k2 x y, k1 < k2 → ts !! k1 = Some x → ts !! k2 = Some y →
            (ival a (starts !!! x) < ival a (starts !!! y))%Z) as Hstrict.
  { intros k1 k2 x y Hlt Hx Hy.
    pose proof (Hlater k2 k1 x y Hlt Hx Hy).
    assert (0 < durations !!! x)%Z
      by (apply Hdur'; by eapply list_elem_of_lookup_2).
    lia. }
  split; [intros Hlt; apply (Hlater kj ki); [lia | done..]|].
  split; [intros Hlt; apply (Hstrict ki kj); [lia | done..]|].
  intros Hlt. destruct (Nat.lt_trichotomy ki kj) as [?|[->|Hgt]]; [lia | |].
  - rewrite Hki in Hkj. injection Hkj as ->. lia.
  - pose proof (Hstrict kj ki j i Hgt Hkj Hki). lia.
Qed.

Lemma ranks_order_present_tasks_by_start_witness :
  rank_tasks_with_circuit sample_starts sample_durations sample_presences
    sample_ranks sample_model = Ok tt sample_encoded ∧
  solution sample_assignment sample_encoded ∧
  (∀ t, t < length sample_starts → (0 < sample_durations !!! t)%Z) ∧
  (0 < length sample_starts ∧ 1 < length sample_starts) ∧
  lit_true sample_assignment (sample_presences !!! 0) = true ∧
  lit_true sample_assignment (sample_presences !!! 1) = true ∧
  ((ival sample_assignment (sample_ranks !!! 0%nat)
    < ival sample_assignment (sample_ranks !!! 1%nat))%Z →
   (ival sample_assignment (sample_starts !!! 0%nat)
    + sample_durations !!! 0%nat
    ≤ ival sample_assignment (sample_starts !!! 1%nat))%Z) ∧
  ((ival sample_assignment (sample_ranks !!! 0%nat)
    < ival sample_assignment (sample_ranks !!! 1%nat))%Z ↔
   (ival sample_assignment (sample_starts !!! 0%nat)
    < ival sample_assignment (sample_starts !!! 1%nat))%Z).
Proof.
  assert (∀ t, t < length sample_starts → (0 < sample_durations !!! t)%Z)
    as Hdur.
  { intros t Ht. cbn in Ht.
    destruct t as [|[|[|t]]]; [reflexivity.. | lia]. }
  split; [exact sample_run|]. split; [exact sample_solution|].
  split; [exact Hdur|]. split; [cbn; lia|].
  split; [reflexivity|]. split; [reflexivity|].
  apply (ranks_order_present_tasks_by_start sample_starts sample_durations
           sample_presences sample_ranks sample_model sample_encoded
           sample_assignment 0 1 sample_run sample_solution Hdur);
    (reflexivity || (cbn; lia)).
Defined.

Lemma total_duration_app durations ts1 ts2 :
  total_duration durations (ts1 ++ ts2)
  = (total_duration durations ts1 + total_duration durations ts2)%Z.
Proof.
  unfold total_duration. induction ts1 as [|i ts1 IH]; cbn; [done|].
  rewrite IH. lia.
Qed.

Lemma total_duration_perm durations ts1 ts2 :
  ts1 ≡ₚ ts2 → total_duration durations ts1 = total_duration durations ts2.
Proof.
  unfold total_duration.
  induction 1 as [|x l1 l2 _ IH|x y l|l1 l2 l3 _ IH1 _ IH2]; cbn;
    [done | by rewrite IH | lia | congruence].
Qed.

(** In the visit order a task starts no earlier than the total duration of
    the tasks before it. *)
Lemma chain_prefix_duration (start : nat → Z) durations (ts : list nat) :
  (∀ i, ts !! 0 = Some i → start i = 0%Z) →
  (∀ k i j, ts !! k = Some i → ts !! S k = Some j →
            (start i + durations !!! i ≤ start j)%Z) →
  ∀ k i, ts !! k = Some i →
         (total_duration durations (take k ts) ≤ start i)%Z.
Proof.
  intros Hfirst Hchain. induction k as [|k IH]; intros i Hi.
  - rewrite take_0. cbn. by rewrite (Hfirst i Hi).
  - assert (is_Some (ts !! k)) as [x Hx].
    { apply lookup_lt_is_Some. apply lookup_lt_Some in Hi. lia. }
    rewrite (take_S_r ts k x Hx), total_duration_app. cbn.
    pose proof (IH x Hx). pose proof (Hchain k x i Hx Hi). lia.
Qed.

(** X4. In every solution, a non-negative time by which every present
    task has ended is at least the total duration of the present tasks. *)
Theorem makespan_covers_total_duration starts durations presences ranks
    m m' a (makespan : Z) :
  rank_tasks_with_circuit starts durations presences ranks m = Ok tt m' →
  solution a m' →
  (0 ≤ makespan)%Z →
  (∀ i, i < length starts → lit_true a (presences !!! i) = true →
        (ival a (starts !!! i) + durations !!! i ≤ makespan)%Z) →
  (total_duration durations (present_tasks a presences (length starts))
   ≤ makespan)%Z.
Proof.
  intros Hrun Hsol Hnn Hend.
  destruct (solution_chain _ _ _ _ _ _ _ _ Hrun Hsol)
    as (ts & Hnd & Hin & _ & Hfirst & Hchain).
  assert (present_tasks a presences (length starts) ≡ₚ ts) as Hperm.
  { apply NoDup_Permutation; [apply NoDup_filter, NoDup_seq | done |].
    intros i. unfold present_tasks.
    rewrite list_elem_of_filter, elem_of_seq, Hin. intuition lia. }
  rewrite (total_duration_perm _ _ _ Hperm).
  destruct (decide (ts = [])) as [->|Hne]; [done|].
  assert (is_Some (ts !! (length ts - 1))) as [x Hx].
  { apply lookup_lt_is_Some. destruct ts; [done | cbn; lia]. }
  assert (ts = take (length ts - 1) ts ++ [x]) as Hsplit.
  { rewrite <- (take_S_r ts _ x Hx).
    replace (S (length ts - 1)) with (length ts)
      by (destruct ts; [done | cbn; lia]).
    by rewrite firstn_all. }
  rewrite Hsplit, total_duration_app. cbn.
  pose proof (chain_prefix_duration (λ t, ival a (starts !!! t)) durations ts
                Hfirst Hchain _ x Hx) as Hpre. cbn beta in Hpre.
  assert (x ∈ ts) as Hxts by (by eapply list_elem_of_lookup_2).
  apply Hin in Hxts as [Hxn Hxp]. pose proof (Hend x Hxn Hxp). lia.
Qed.

Lemma makespan_covers_total_duration_witness :
  rank_tasks_with_circuit sample_starts sample_durations sample_presences
    sample_ranks sample_model = Ok tt sample_encoded ∧
  solution sample_assignment sample_encoded ∧
  (0 ≤ 3)%Z ∧
  (∀ i, i < length sample_starts →
        lit_true sample_assignment (sample_presences !!! i) = true →
        (ival sample_assignment (sample_starts !!! i)
         + sample_durations !!! i ≤ 3)%Z) ∧
  (total_duration sample_durations
     (present_tasks sample_assignment sample_presences
        (length sample_starts)) ≤ 3)%Z.
Proof.
  assert (∀ i, i < length sample_starts →
               lit_true sample_assignment (sample_presences !!! i) = true →
               (ival sample_assignment (sample_starts !!! i)
                + sample_durations !!! i ≤ 3)%Z) as Hend.
  { intros i Hi. cbn in Hi.
    destruct i as [|[|[|i]]]; [by vm_compute.. | lia]. }
  split; [exact sample_run|]. split; [exact sample_solution|].
  split; [lia|]. split; [exact Hend|].
  apply (makespan_covers_total_duration sample_starts sample_durations
           sample_presences sample_ranks sample_model sample_encoded
           sample_assignment 3 sample_run sample_solution); [lia | exact Hend].
Defined.

(** ** The empty circuit *)

Lemma filter_two {A} (P : A → Prop) `{∀ x, Decision (P x)} (l : list A) x y :
  x ∈ l → y ∈ l → x ≠ y → P x → P y → 2 ≤ length (filter P l).
Proof.
  intros Hx Hy Hne HPx HPy.
  assert (x ∈ filter P l) as Hx' by (by apply list_elem_of_filter).
  assert (y ∈ filter P l) as Hy' by (by apply list_elem_of_filter).
  destruct (filter P l) as [|z1 [|z2 k]]; cbn; [| |lia].
  - by apply elem_of_nil in Hx'.
  - apply list_elem_of_singleton in Hx', Hy'. congruence.
Qed.

Lemma filter_one_elem {A} (P : A → Prop) `{∀ x, Decision (P x)} (l : list A) :
  length (filter P l) = 1 → ∃ x, x ∈ l ∧ P x.
Proof.
  destruct (filter P l) as [|x k] eqn:E; [done|]. intros _.
  assert (x ∈ filter P l) as Hx by (rewrite E; apply elem_of_cons; by left).
  apply list_elem_of_filter in Hx as [? ?]. by exists x.
Qed.

(** When no task is present the depot can only loop on itself. *)
Lemma nothing_present_depot_loops presences n base a :
  circuit_sat a (all_arcs presences n base) →
  (∀ i, i < n → lit_true a (presences !!! i) = false) →
  bval a (empty_var n base) = true.
Proof.
  intros [Hdeg _] Habsent.
  destruct (Hdeg 0 (depot_is_node _ _ _)) as [Hout _].
  apply filter_one_elem in Hout as ([u w] & Hsel & Hu). cbn in Hu. subst u.
  destruct (selected_cases _ _ _ _ _ _ Hsel)
    as [(_ & _ & He)|[(i & Hi & _ & -> & _)|[(?&?&?&_)|[(?&?&?&_)|(?&?&?&?&?&?&_)]]]];
    [done | | lia..].
  exfalso.
  destruct (Hdeg (i + 1) (task_is_node _ _ _ i Hi)) as [_ Hin].
  assert ((i + 1, i + 1) ∈ selected a (all_arcs presences n base)) as Hloop.
  { apply (selected_self_loop presences n base a i Hi). by apply Habsent. }
  pose proof (filter_two (λ e : nat * nat, e.2 = i + 1) _ (0, i + 1)
                (i + 1, i + 1) Hsel Hloop) as Htwo.
  unfold in_degree in Hin. rewrite Hin in Htwo.
  assert (2 ≤ 1) by (apply Htwo; [intros [= ?]; lia | done | done]). lia.
Qed.

(** X5. In every solution the literal on the depot self-loop is true
    exactly when no task is present. *)
Theorem empty_literal_iff_nothing_present starts durations presences ranks
    m m' a e :
  rank_tasks_with_circuit starts durations presences ranks m = Ok tt m' →
  solution a m' →
  (0, 0, Pos e) ∈ circuit_arcs (posted m m') →
  bval a e = true
  ↔ ∀ i, i < length starts → lit_true a (presences !!! i) = false.
Proof.
  intros Hrun Hsol He.
  destruct (solution_posted _ _ _ _ _ _ _ _ Hrun Hsol) as [Hcts Hcirc].
  apply rank_tasks_with_circuit_posted in Hrun as (_ & Harcs & _).
  rewrite Harcs in He.
  assert (e = empty_var (length starts) (length (bool_vars m))) as ->.
  { assert ((0, 0, Pos e)
            ∈ filter (λ t : ArcT, t.1 = (0, 0))
                (all_arcs presences (length starts) (length (bool_vars m))))
      as Hin by (by apply list_elem_of_filter).
    rewrite all_arcs_at in Hin by lia.
    apply list_elem_of_singleton in Hin. by injection Hin as ->. }
  split.
  - intros Htrue i Hi. by eapply empty_absent.
  - by apply nothing_present_depot_loops.
Qed.

Lemma empty_literal_iff_nothing_present_witness :
  rank_tasks_with_circuit sample_starts sample_durations sample_presences
    sample_ranks sample_model = Ok tt sample_encoded ∧
  solution sample_assignment sample_encoded ∧
  (0, 0, Pos 15) ∈ circuit_arcs (posted sample_model sample_encoded) ∧
  (bval sample_assignment 15 = true
   ↔ ∀ i, i < length sample_starts →
          lit_true sample_assignment (sample_presences !!! i) = false).
Proof.
  assert ((0, 0, Pos 15) ∈ circuit_arcs (posted sample_model sample_encoded))
    as Hin by (apply (bool_decide_unpack _); vm_compute; exact I).
  split; [exact sample_run|]. split; [exact sample_solution|].
  split; [exact Hin|].
  exact (empty_literal_iff_nothing_present sample_starts sample_durations
           sample_presences sample_ranks sample_model sample_encoded
           sample_assignment 15 sample_run sample_solution Hin).
Defined.

(** ** The size of the encoding *)

Lemma pair_cts_length starts durations presences ranks n base i j :
  length (pair_cts starts durations presences ranks n base i j)
  = if decide (i = j) then 1 else 2.
Proof. unfold pair_cts. by case_decide. Qed.

Lemma pair_cts_total starts durations presences ranks n base i len : ∀ j,
  length (flat_map (pair_cts starts durations presences ranks n base i)
            (seq j len))
  = 2 * len - (if decide (j ≤ i < j + len) then 1 else 0).
Proof.
  induction len as [|len IH]; intros j; cbn [seq flat_map].
  - by case_decide.
  - rewrite length_app, IH, pair_cts_length. repeat case_decide; lia.
Qed.

(** X8. A successful call on [n] tasks creates [n * (n + 1) + 1] Boolean
    variables and posts [2 * n * n + 2 * n + 1] constraints. *)
Theorem encoding_size starts durations presences ranks m m' :
  rank_tasks_with_circuit starts durations presences ranks m = Ok tt m' →
  let n := length starts in
  length (created m m') = n * (n + 1) + 1 ∧
  length (posted m m') = 2 * n * n + 2 * n + 1.
Proof.
  intros Hrun n.
  apply rank_tasks_with_circuit_posted in Hrun
    as (Hposted & _ & Hcreated & Hlen & _).
  fold n in Hposted, Hcreated, Hlen. split.
  - unfold created. rewrite length_drop. lia.
  - rewrite Hposted. unfold all_cts, empty_cts.
    rewrite !length_app, length_map, length_seq.
    rewrite (flat_map_constant_length (c := 2 * n + 1)).
    + rewrite length_seq. cbn. lia.
    + intros i Hi%in_seq. unfold task_cts.
      rewrite length_app, pair_cts_total. cbn. case_decide; lia.
Qed.

Lemma encoding_size_witness :
  rank_tasks_with_circuit sample_starts sample_durations sample_presences
    sample_ranks sample_model = Ok tt sample_encoded ∧
  length (created sample_model sample_encoded) = 3 * (3 + 1) + 1 ∧
  length (posted sample_model sample_encoded) = 2 * 3 * 3 + 2 * 3 + 1.
Proof.
  split; [exact sample_run|].
  exact (encoding_size sample_starts sample_durations sample_presences
           sample_ranks sample_model sample_encoded sample_run).
Defined.

(** ** What the caller had in the model stays *)

(** X10. Whatever the outcome of a call, also when it raises
    [IndexError] half-way, the model still begins with the Boolean
    variables and the constraints the caller had in it, unchanged. *)
Theorem existing_model_untouched starts durations presences ranks m :
  match rank_tasks_with_circuit starts durations presences ranks m with
  | Ok _ m' | Raise _ m' =>
      bool_vars m `prefix_of` bool_vars m' ∧
      constraints m `prefix_of` constraints m'
  end.
Proof.
  pose proof (keeps_rank_tasks_with_circuit (length (constraints m))
                starts durations presences ranks m (Nat.le_refl _)) as Hk.
  destruct (rank_tasks_with_circuit starts durations presences ranks m)
    as [u m'|e m'];
    (destruct Hk as (Htake & _ & Hpre); split; [done|];
     rewrite firstn_all in Htake; rewrite <- Htake; apply prefix_take).
Qed.

(** ** Every ranking is a solution *)

(** The arcs of a route, by position. *)
Lemma elem_of_route ts : ∀ u x y,
  (x, y) ∈ route u ts ↔
  ∃ k, (u :: (S <$> ts)) !! k = Some x ∧ ((S <$> ts) ++ [0]) !! k = Some y.
Proof.
  induction ts as [|i ts IH]; intros u x y; cbn [route].
  - rewrite list_elem_of_singleton. split.
    + intros [= -> ->]. by exists 0.
    + intros ([|k] & Hx & Hy); cbn in Hx, Hy; [|done].
      injection Hx as ->. by injection Hy as <-.
  - rewrite elem_of_cons, IH. split.
    + intros [[= -> ->]|(k & Hx & Hy)]; [by exists 0 | by exists (S k)].
    + intros ([|k] & Hx & Hy); cbn in Hx, Hy.
      * left. congruence.
      * right. by exists k.
Qed.

Section Route.
Variable ts : list nat.
Hypothesis ts_NoDup : NoDup ts.

Let heads : list nat := 0 :: (S <$> ts).
Let tails : list nat := (S <$> ts) ++ [0].

Lemma heads_NoDup : NoDup heads.
Proof.
  apply NoDup_cons. split.
  - rewrite list_elem_of_fmap. by intros (? & ? & _).
  - apply NoDup_fmap_2; [apply _ | done].
Qed.

Lemma tails_NoDup : NoDup tails.
Proof.
  apply NoDup_app. split; [|split].
  - apply NoDup_fmap_2; [apply _ | done].
  - intros x Hx. rewrite list_elem_of_fmap in Hx. destruct Hx as (? & -> & _).
    rewrite list_elem_of_singleton. lia.
  - apply NoDup_singleton.
Qed.

Lemma tails_after_heads k y :
  tails !! k = Some y →
  heads !! S k = Some y ∨ (k = length ts ∧ y = 0).
Proof.
  unfold tails, heads. rewrite lookup_snoc_Some, length_fmap. cbn.
  intros [[_ ?]|[? ?]]; [by left | by right].
Qed.

Lemma route_functional x y y' :
  (x, y) ∈ route 0 ts → (x, y') ∈ route 0 ts → y = y'.
Proof.
  rewrite !elem_of_route. intros (k & Hx & Hy) (k' & Hx' & Hy').
  assert (k = k') as <- by (eapply NoDup_lookup; [apply heads_NoDup|done..]).
  fold tails in Hy, Hy'. congruence.
Qed.

Lemma route_injective x x' y :
  (x, y) ∈ route 0 ts → (x', y) ∈ route 0 ts → x = x'.
Proof.
  rewrite !elem_of_route. intros (k & Hx & Hy) (k' & Hx' & Hy').
  assert (k = k') as <- by (eapply NoDup_lookup; [apply tails_NoDup|done..]).
  fold heads in Hx, Hx'. congruence.
Qed.

Lemma route_leaves x : x ∈ heads → ∃ y, (x, y) ∈ route 0 ts.
Proof.
  intros [k Hk]%list_elem_of_lookup.
  assert (is_Some (tails !! k)) as [y Hy].
  { apply lookup_lt_is_Some. apply lookup_lt_Some in Hk.
    unfold tails, heads in *. rewrite length_app. cbn in *. lia. }
  exists y. apply elem_of_route. by exists k.
Qed.

Lemma route_enters y : y ∈ heads → ∃ x, (x, y) ∈ route 0 ts.
Proof.
  intros Hy.
  assert (y ∈ tails) as [k Hk]%list_elem_of_lookup.
  { unfold heads, tails in *. rewrite elem_of_app, list_elem_of_singleton.
    apply elem_of_cons in Hy as [->|?]; [by right | by left]. }
  assert (is_Some (heads !! k)) as [x Hx].
  { apply lookup_lt_is_Some. apply lookup_lt_Some in Hk.
    unfold tails, heads in *. rewrite length_app in Hk. cbn in *. lia. }
  exists x. apply elem_of_route. by exists k.
Qed.

Lemma route_ends x y : (x, y) ∈ route 0 ts → x ∈ heads ∧ y ∈ heads.
Proof.
  rewrite elem_of_route. intros (k & Hx & Hy). split.
  - by eapply list_elem_of_lookup_2.
  - apply tails_after_heads in Hy as [Hy|[_ ->]].
    + by eapply list_elem_of_lookup_2.
    + apply elem_of_cons. by left.
Qed.

(** A route through at least one task has no self-loop. *)
Lemma route_no_loop x : ts ≠ [] → (x, x) ∉ route 0 ts.
Proof.
  intros Hne. rewrite elem_of_route. intros (k & Hx & Hy).
  apply tails_after_heads in Hy as [Hy|[-> ->]].
  - assert (k = S k) by (eapply NoDup_lookup; [apply heads_NoDup|done..]).
    lia.
  - assert (length ts = 0)
      by (eapply NoDup_lookup; [apply heads_NoDup | done | done]).
    by destruct ts.
Qed.

Lemma route_first i : (0, S i) ∈ route 0 ts → ts !! 0 = Some i.
Proof.
  rewrite elem_of_route. intros (k & Hx & Hy).
  assert (k = 0) as -> by (eapply NoDup_lookup; [apply heads_NoDup|done..]).
  destruct ts as [|j ts']; cbn in *; congruence.
Qed.

Lemma route_step i j :
  (S i, S j) ∈ route 0 ts → ∃ k, ts !! k = Some i ∧ ts !! S k = Some j.
Proof.
  rewrite elem_of_route. intros ([|k] & Hx & Hy); cbn in Hx; [done|].
  exists k. apply list_lookup_fmap_Some in Hx as (i' & [= <-] & Hi).
  split; [done|].
  apply lookup_snoc_Some in Hy as [[_ Hy]|[_ ?]]; [|done].
  by apply list_lookup_fmap_Some in Hy as (j' & [= <-] & Hj).
Qed.

Lemma route_depot_loop : (0, 0) ∈ route 0 ts → ts = [].
Proof.
  rewrite elem_of_route. intros (k & Hx & Hy).
  assert (k = 0) as -> by (eapply NoDup_lookup; [apply heads_NoDup|done..]).
  by destruct ts.
Qed.
End Route.

(** The arcs of a route form a path. *)
Lemma route_path (sel : list (nat * nat)) ts : ∀ u,
  (∀ e, e ∈ route u ts → e ∈ sel) → path sel u (S <$> ts) 0.
Proof.
  induction ts as [|i ts IH]; intros u Hsel; cbn.
  - apply Hsel. cbn. by apply list_elem_of_singleton.
  - split; [apply Hsel; cbn; apply elem_of_cons; by left|].
    apply IH. intros e He. apply Hsel. cbn. apply elem_of_cons. by right.
Qed.

Lemma elem_of_nodes arcs v :
  v ∈ nodes arcs ↔ ∃ t : ArcT, t ∈ arcs ∧ (v = t.1.1 ∨ v = t.1.2).
Proof.
  unfold nodes. rewrite elem_of_remove_dups, elem_of_flat_map.
  apply exist_proper. intros t. rewrite !elem_of_cons, elem_of_nil. tauto.
Qed.

Lemma selected_NoDup a arcs : NoDup arcs.*1 → NoDup (selected a arcs).
Proof.
  intros Hnd. unfold selected. eapply sublist_NoDup; [exact Hnd|].
  apply fmap_sublist, sublist_filter.
Qed.

(** In a list of arcs without repetition, a node with exactly one selected
    successor has out-degree one, and dually. *)
Lemma out_degree_one (sel : list (nat * nat)) v w :
  NoDup sel → (v, w) ∈ sel → (∀ w', (v, w') ∈ sel → w' = w) →
  out_degree sel v = 1.
Proof.
  intros Hnd Hin Huniq. unfold out_degree.
  rewrite (filter_unique _ sel (v, w)); [done.. |].
  intros [v' w'] Hin' Hv. cbn in Hv. subst v'. f_equal. by apply Huniq.
Qed.

Lemma in_degree_one (sel : list (nat * nat)) v u :
  NoDup sel → (u, v) ∈ sel → (∀ u', (u', v) ∈ sel → u' = u) →
  in_degree sel v = 1.
Proof.
  intros Hnd Hin Huniq. unfold in_degree.
  rewrite (filter_unique _ sel (u, v)); [done.. |].
  intros [u' v'] Hin' Hv. cbn in Hv. subst v'. f_equal. by apply Huniq.
Qed.

Section Completeness.
Variables (starts : list ivar) (durations : list Z)
          (presences : list lit) (ranks : list ivar).
Variable base : nat.
Variable a0 : assignment.
Variable ts : list nat.

Let n := length starts.
Let arcs := all_arcs presences n base.
Let cts := all_cts starts durations presences ranks n base.
Let a := route_assignment presences n base a0 ts.
Let sel := selected a arcs.

Hypothesis presences_old : ∀ i, i < n → lit_var (presences !!! i) < base.
Hypothesis Hranked : ranked starts durations presences ranks a0 ts.

Lemma ranked_NoDup : NoDup ts.
Proof. by destruct Hranked. Qed.

Lemma ranked_present i :
  i ∈ ts ↔ i < n ∧ lit_true a0 (presences !!! i) = true.
Proof. destruct Hranked as (_ & H & _). apply H. Qed.

Lemma old_lit_true l : lit_var l < base → lit_true a l = lit_true a0 l.
Proof.
  intros Hl. unfold a, route_assignment.
  destruct l; cbn in *; by rewrite decide_True.
Qed.

Lemma route_bound u w : (u, w) ∈ route 0 ts → u ≤ n ∧ w ≤ n.
Proof.
  intros He. apply (route_ends ts) in He as [Hu Hw].
  assert (∀ x, x ∈ 0 :: (S <$> ts) → x ≤ n) as Hb.
  { intros x [->|Hx]%elem_of_cons; [lia|].
    apply list_elem_of_fmap in Hx as (i & -> & Hi).
    apply ranked_present in Hi as [? _]. lia. }
  split; by apply Hb.
Qed.

Lemma route_loop_depot u : (u, u) ∈ route 0 ts → u = 0.
Proof.
  intros He. destruct (decide (ts = [])) as [Hnil|Hne].
  - rewrite Hnil in He. cbn in He.
    apply list_elem_of_singleton in He. by injection He.
  - by apply (route_no_loop ts ranked_NoDup) in He.
Qed.

(** Apart from the self-loops of the tasks, every arc carries a literal the
    encoder created. *)
Lemma arc_lit_fresh u w :
  u ≤ n → w ≤ n → (u = w → u = 0) →
  ∃ v, arc_lit presences n base u w = Pos v ∧ base ≤ v.
Proof.
  intros Hu Hw Hloop. destruct u as [|i], w as [|j]; cbn [arc_lit].
  - eexists. split; [done|]. unfold empty_var. lia.
  - eexists. split; [done|]. unfold start_var. lia.
  - eexists. split; [done|]. unfold end_var. lia.
  - assert (i ≠ j) as Hij by (intros ->; by specialize (Hloop eq_refl)).
    rewrite pair_arc_lit_succ by done.
    eexists. split; [done|]. unfold succ_var. lia.
Qed.

Lemma fresh_arc_true u w :
  u ≤ n → w ≤ n → (u = w → u = 0) →
  lit_true a (arc_lit presences n base u w) = true ↔ (u, w) ∈ route 0 ts.
Proof.
  intros Hu Hw Hloop.
  destruct (arc_lit_fresh u w Hu Hw Hloop) as (v & Hv & Hfresh).
  rewrite Hv. unfold a, route_assignment. cbn.
  rewrite decide_False by lia. rewrite bool_decide_eq_true, list_elem_of_fmap.
  split.
  - intros ([u' w'] & Hvar & He). cbn in Hvar.
    destruct (route_bound u' w' He) as [Hu' Hw'].
    assert ((u, w, arc_lit presences n base u w)
            = (u', w', arc_lit presences n base u' w')) as Heq.
    { apply (fresh_lit_one_arc starts durations presences ranks n base
               presences_old);
        [by apply arc_lit_elem | by apply arc_lit_elem | |];
        cbn; rewrite Hv; cbn; [lia | done]. }
    by injection Heq as -> ->.
  - intros He. exists (u, w). cbn. by rewrite Hv.
Qed.

Lemma task_loop_true i :
  i < n →
  lit_true a (arc_lit presences n base (S i) (S i)) = true ↔ i ∉ ts.
Proof.
  intros Hi. cbn [arc_lit]. unfold pair_arc. rewrite decide_True by done.
  cbn [snd]. rewrite lit_true_Not, old_lit_true by by apply presences_old.
  rewrite negb_true_iff, ranked_present.
  destruct (lit_true a0 (presences !!! i)); split.
  - intros [=].
  - intros Hnot. exfalso. by apply Hnot.
  - intros _ [_ [=]].
  - done.
Qed.

Lemma elem_of_all_arcs_lit u w l :
  (u, w, l) ∈ arcs ↔ u ≤ n ∧ w ≤ n ∧ l = arc_lit presences n base u w.
Proof.
  split.
  - intros Hin. destruct (all_arcs_bound _ _ _ _ Hin) as [Hu Hw].
    cbn in Hu, Hw. split; [done|]. split; [done|].
    assert ((u, w, l) = (u, w, arc_lit presences n base u w)) as Heq.
    { apply (NoDup_fmap_inj_on fst arcs);
        [apply all_arcs_NoDup_ends | done | by apply arc_lit_elem | done]. }
    by injection Heq.
  - intros (Hu & Hw & ->). by apply arc_lit_elem.
Qed.

(** The selected arcs are those of the route, and the self-loops of the
    absent tasks. *)
Lemma route_selected u w :
  (u, w) ∈ sel ↔
  (u, w) ∈ route 0 ts ∨ (∃ i, i < n ∧ (i ∉ ts) ∧ u = S i ∧ w = S i).
Proof.
  unfold sel. rewrite elem_of_selected. split.
  - intros (l & Hin & Hl).
    apply elem_of_all_arcs_lit in Hin as (Hu & Hw & ->).
    destruct (decide (u = w ∧ u ≠ 0)) as [[<- Hu0]|Hno].
    + right. destruct u as [|i]; [done|]. exists i.
      apply task_loop_true in Hl; [|lia]. repeat split; [lia | done].
    + left. apply fresh_arc_true; [done.. | | done]. intros ->.
      destruct (decide (w = 0)); [done | tauto].
  - intros [He|(i & Hi & Hnot & -> & ->)].
    + destruct (route_bound u w He) as [Hu Hw].
      exists (arc_lit presences n base u w). split.
      * by apply arc_lit_elem.
      * apply fresh_arc_true; [done.. | | done].
        intros ->. by apply route_loop_depot.
    + exists (arc_lit presences n base (S i) (S i)). split.
      * apply arc_lit_elem; lia.
      * apply task_loop_true; [done | done].
Qed.

Lemma route_selected_NoDup : NoDup sel.
Proof. apply selected_NoDup, all_arcs_NoDup_ends. Qed.

Lemma node_bound v : v ∈ nodes arcs → v ≤ n.
Proof.
  intros (t & Ht & Hv)%elem_of_nodes.
  destruct (all_arcs_bound _ _ _ _ Ht). destruct Hv; lia.
Qed.

(** A node is on the route, or it is the node of an absent task. *)
Lemma on_route_or_absent v :
  v ≤ n →
  v ∈ 0 :: (S <$> ts) ∨ (∃ i, i < n ∧ (i ∉ ts) ∧ v = S i).
Proof.
  intros Hv. destruct v as [|i]; [left; apply elem_of_cons; by left|].
  destruct (decide (i ∈ ts)) as [Hi|Hi].
  - left. apply elem_of_cons. right. by apply list_elem_of_fmap_2.
  - right. exists i. repeat split; [lia | done].
Qed.

Lemma on_route_not_absent v i :
  v ∈ 0 :: (S <$> ts) → i ∉ ts → v ≠ S i.
Proof.
  intros [->|Hv]%elem_of_cons Hi; [done|].
  apply list_elem_of_fmap in Hv as (j & -> & Hj). by intros [= ->].
Qed.

Lemma route_degrees v :
  v ∈ nodes arcs → out_degree sel v = 1 ∧ in_degree sel v = 1.
Proof.
  intros Hv%node_bound.
  destruct (on_route_or_absent v Hv) as [Hon|(i & Hi & Hnot & ->)].
  - destruct (route_leaves ts v Hon) as [w Hw].
    destruct (route_enters ts v Hon) as [u Hu]. split.
    + apply (out_degree_one sel v w route_selected_NoDup).
      * apply route_selected. by left.
      * intros w' [He|(i & _ & Hnot & -> & _)]%route_selected.
        -- by apply (route_functional ts ranked_NoDup v).
        -- by apply on_route_not_absent with (i := i) in Hon.
    + apply (in_degree_one sel v u route_selected_NoDup).
      * apply route_selected. by left.
      * intros u' [He|(i & _ & Hnot & _ & ->)]%route_selected.
        -- by apply (route_injective ts ranked_NoDup _ _ v).
        -- by apply on_route_not_absent with (i := i) in Hon.
  - assert ((S i, S i) ∈ sel) as Hloop
      by (apply route_selected; right; by exists i).
    split.
    + apply (out_degree_one sel (S i) (S i) route_selected_NoDup Hloop).
      intros w' [He|(j & _ & _ & [= ->] & ->)]%route_selected; [|done].
      apply (route_ends ts) in He as [Hon _].
      by apply on_route_not_absent with (i := i) in Hon.
    + apply (in_degree_one sel (S i) (S i) route_selected_NoDup Hloop).
      intros u' [He|(j & _ & _ & -> & [= ->])]%route_selected; [|done].
      apply (route_ends ts) in He as [_ Hon].
      by apply on_route_not_absent with (i := i) in Hon.
Qed.

(** The route is a circuit in the sense of the circuit constraint. *)
Lemma route_circuit : circuit_sat a arcs.
Proof.
  split; [apply route_degrees|]. fold sel.
  destruct (decide (ts = [])) as [Hnil|Hne].
  - right. intros v Hv%node_bound. apply route_selected.
    destruct v as [|i].
    + left. rewrite Hnil. cbn. by apply list_elem_of_singleton.
    + right. exists i. rewrite Hnil. repeat split; [lia | apply not_elem_of_nil].
  - left. exists (0 :: (S <$> ts)). split.
    + split; [by apply heads_NoDup, ranked_NoDup|].
      apply route_path. intros [u w] He. apply route_selected. by left.
    + intros v Hv%node_bound. split.
      * intros Hon [He|(i & _ & Hnot & -> & _)]%route_selected.
        -- by apply (route_no_loop ts ranked_NoDup) in He.
        -- by apply on_route_not_absent with (i := i) in Hon.
      * intros Hnoloop.
        destruct (on_route_or_absent v Hv) as [Hon|(i & Hi & Hnot & ->)];
          [done|].
        exfalso. apply Hnoloop. apply route_selected. right. by exists i.
Qed.

Lemma enforced_sat l ct :
  (lit_true a l = true → holds a ct = true) → constraint_sat a (enforced l ct).
Proof.
  intros Hct Henf. cbn in *. apply Hct. by apply Forall_cons in Henf as [? _].
Qed.

(** The route satisfies every constraint the encoder posts. *)
Lemma route_solution : Forall (constraint_sat a) cts.
Proof.
  destruct Hranked as (_ & _ & Hpos & Habsent & Hfirst & Hchain).
  apply Forall_forall. intros c Hc. unfold cts, all_cts in Hc.
  rewrite !elem_of_app, list_elem_of_singleton in Hc.
  destruct Hc as [Hc|[Hc| ->]].
  - apply elem_of_flat_map in Hc as (i & Hi%elem_of_seq & Hc).
    unfold task_cts in Hc.
    rewrite elem_of_app, !elem_of_cons, elem_of_nil, elem_of_flat_map in Hc.
    assert (lit_true a (Pos (start_var n base i)) = true → ts !! 0 = Some i)
      as Hstart.
    { intros Hl. apply (route_first ts ranked_NoDup).
      apply (fresh_arc_true 0 (S i)); [lia | lia | done | done]. }
    destruct Hc as [[->|[->|[]]]|(j & Hj%elem_of_seq & Hc)].
    + apply enforced_sat. intros Hl%Hstart. cbn.
      rewrite (Hpos 0 i Hl). done.
    + apply enforced_sat. intros Hl%Hstart. cbn.
      rewrite (Hfirst i Hl). done.
    + unfold pair_cts in Hc. case_decide as Hij.
      * apply list_elem_of_singleton in Hc as ->. apply enforced_sat.
        rewrite lit_true_Not, old_lit_true by (apply presences_old; lia).
        intros Hl%negb_true_iff. cbn. rewrite Habsent by (lia || done). done.
      * assert (lit_true a (Pos (succ_var n base i j)) = true →
                ∃ k, ts !! k = Some i ∧ ts !! S k = Some j) as Hsucc.
        { intros Hl. apply (route_step ts).
          apply (fresh_arc_true (S i) (S j)); [lia | lia | lia |].
          cbn [arc_lit]. by rewrite pair_arc_lit_succ. }
        rewrite !elem_of_cons, elem_of_nil in Hc.
        destruct Hc as [->|[->|[]]]; apply enforced_sat;
          intros (k & Hki & Hkj)%Hsucc; cbn.
        -- rewrite (Hpos _ _ Hki), (Hpos _ _ Hkj). apply Z.eqb_eq. lia.
        -- apply Z.leb_le. by apply (Hchain k).
  - unfold empty_cts in Hc.
    apply list_elem_of_fmap in Hc as (i & -> & Hi%elem_of_seq).
    intros _ Hl. cbn [body body_sat] in *.
    assert (ts = []) as Hnil.
    { apply (route_depot_loop ts ranked_NoDup).
      apply (fresh_arc_true 0 0); [lia | lia | done | done]. }
    rewrite lit_true_Not, old_lit_true by (apply presences_old; lia).
    apply negb_true_iff.
    destruct (lit_true a0 (presences !!! i)) eqn:Hp; [exfalso | done].
    assert (i ∈ ts) as Hin by (apply ranked_present; split; [lia | done]).
    rewrite Hnil in Hin. by apply elem_of_nil in Hin.
  - intros _. apply route_circuit.
Qed.
End Completeness.

(** A solution ranks the present tasks in the order the circuit visits
    them. *)
Lemma ranked_of_solution starts durations presences ranks m u m' a :
  rank_tasks_with_circuit starts durations presences ranks m = Ok u m' →
  solution a m' →
  ∃ ts, ranked starts durations presences ranks a ts.
Proof.
  intros Hrun Hsol.
  destruct (solution_chain _ _ _ _ _ _ _ _ Hrun Hsol)
    as (ts & Hnd & Hin & Hpos & Hfirst & Hchain).
  destruct (solution_posted _ _ _ _ _ _ _ _ Hrun Hsol) as [Hcts _].
  exists ts. unfold ranked.
  split; [done|]. split; [done|]. split; [done|]. split; [|by split].
  intros i Hi Hp. by eapply absent_rank.
Qed.

(** X6. The solutions of the encoding are rankings: every solution of the
    model a successful call leaves behind ranks the present tasks in some
    order, with rank [-1] for the absent ones, the first task at time zero
    and each task starting after the one before it has ended. *)
Theorem solutions_are_rankings starts durations presences ranks m m' a :
  rank_tasks_with_circuit starts durations presences ranks m = Ok tt m' →
  solution a m' →
  ∃ ts, ranked starts durations presences ranks a ts.
Proof. apply ranked_of_solution. Qed.

Lemma solutions_are_rankings_witness :
  rank_tasks_with_circuit sample_starts sample_durations sample_presences
    sample_ranks sample_model = Ok tt sample_encoded ∧
  solution sample_assignment sample_encoded ∧
  ∃ ts, ranked sample_starts sample_durations sample_presences sample_ranks
          sample_assignment ts.
Proof.
  split; [exact sample_run|]. split; [exact sample_solution|].
  exact (solutions_are_rankings sample_starts sample_durations
           sample_presences sample_ranks sample_model sample_encoded
           sample_assignment sample_run sample_solution).
Defined.

(** X7. Every ranking is a solution: when the presence literals are
    variables the model already holds, a valuation that ranks the present
    tasks in some order extends, on the literals the call creates, to an
    assignment that satisfies every constraint the call posts. *)
Theorem every_ranking_is_a_solution starts durations presences ranks m m'
    a0 ts :
  rank_tasks_with_circuit starts durations presences ranks m = Ok tt m' →
  Forall (λ p, lit_var p < length (bool_vars m)) presences →
  ranked starts durations presences ranks a0 ts →
  ∃ a, ival a = ival a0 ∧
       (∀ v, v < length (bool_vars m) → bval a v = bval a0 v) ∧
       Forall (constraint_sat a) (posted m m').
Proof.
  intros Hrun Hold Hranked.
  apply rank_tasks_with_circuit_posted in Hrun as (Hposted & _ & _ & _ & Hp).
  pose proof (presences_in_model _ _ _ Hp Hold) as Hold'.
  exists (route_assignment presences (length starts) (length (bool_vars m))
            a0 ts).
  split; [done|]. split.
  - intros v Hv. cbn. by rewrite decide_True.
  - rewrite Hposted. by apply route_solution.
Qed.

Lemma sample_ranked :
  ranked sample_starts sample_durations sample_presences sample_ranks
    sample_assignment [0; 1].
Proof.
  split; [by_decide|]. split; [|split; [|split; [|split]]].
  - intros i. rewrite !elem_of_cons, elem_of_nil.
    destruct i as [|[|[|i]]]; cbn; split;
      (lia || (intros [_ [=]]) || (intros; exfalso; lia) || (by auto)).
  - intros [|[|k]] i [= <-]; reflexivity.
  - intros [|[|[|i]]] Hi; cbn in *; (reflexivity || lia || by intros [=]).
  - by intros i [= <-].
  - intros [|[|k]] i j; cbn; intros [= <-] [= <-]. by vm_compute.
Qed.

Lemma every_ranking_is_a_solution_witness :
  rank_tasks_with_circuit sample_starts sample_durations sample_presences
    sample_ranks sample_model = Ok tt sample_encoded ∧
  Forall (λ p, lit_var p < length (bool_vars sample_model)) sample_presences ∧
  ranked sample_starts sample_durations sample_presences sample_ranks
    sample_assignment [0; 1] ∧
  ∃ a, ival a = ival sample_assignment ∧
       (∀ v, v < length (bool_vars sample_model) →
             bval a v = bval sample_assignment v) ∧
       Forall (constraint_sat a) (posted sample_model sample_encoded).
Proof.
  split; [exact sample_run|]. split; [exact sample_presences_old|].
  split; [exact sample_ranked|].
  exact (every_ranking_is_a_solution sample_starts sample_durations
           sample_presences sample_ranks sample_model sample_encoded
           sample_assignment [0; 1] sample_run sample_presences_old
           sample_ranked).
Defined.

(** ** The names of the created literals *)

(** Looking up in a concatenation of blocks of the same length. *)
Lemma lookup_flat_map_block {B} (f : nat → list B) c len : ∀ s i o,
  (∀ x, length (f x) = c) → i < len → o < c →
  flat_map f (seq s len) !! (i * c + o) = f (s + i) !! o.
Proof.
  induction len as [|len IH]; intros s i o Hc Hi Ho; [lia|].
  cbn [seq flat_map]. destruct i as [|i].
  - rewrite lookup_app_l by (rewrite Hc; lia). by rewrite Nat.add_0_r.
  - replace (S i * c + o) with (c + (i * c + o)) by (cbn; lia).
    rewrite lookup_app_r by (rewrite Hc; lia). rewrite Hc.
    replace (c + (i * c + o) - c) with (i * c + o) by lia.
    rewrite IH by (done || lia).
    by replace (S s + i) with (s + S i) by lia.
Qed.

Lemma pair_names_count i len : ∀ j,
  length (flat_map (pair_names i) (seq j len))
  = len - (if decide (j ≤ i < j + len) then 1 else 0).
Proof.
  induction len as [|len IH]; intros j; cbn [seq flat_map].
  - by case_decide.
  - rewrite length_app, IH, pair_names_length. repeat case_decide; lia.
Qed.

Lemma pair_names_lookup n i j :
  j < n → i ≠ j →
  flat_map (pair_names i) (seq 0 n) !! (if decide (j < i) then j else j - 1)
  = Some ("arc_" +:+ pretty i +:+ "_to_" +:+ pretty j).
Proof.
  intros Hj Hij.
  assert (flat_map (pair_names i) (seq 0 n)
          = flat_map (pair_names i) (seq 0 j)
            ++ ("arc_" +:+ pretty i +:+ "_to_" +:+ pretty j)
               :: flat_map (pair_names i) (seq (S j) (n - S j))) as ->.
  { replace n with (j + S (n - S j)) at 1 by lia.
    rewrite seq_app, flat_map_app. cbn [seq flat_map].
    unfold pair_names at 2. by rewrite decide_False. }
  apply list_lookup_middle.
  rewrite (pair_names_count i j 0). repeat case_decide; lia.
Qed.

Lemma task_names_block n i :
  length (task_names n i) = if decide (i < n) then n + 1 else n + 2.
Proof.
  unfold task_names. rewrite length_app, (pair_names_count i n 0). cbn.
  repeat case_decide; lia.
Qed.

Lemma task_names_lookup n i o :
  i < n → o < n + 1 →
  flat_map (task_names n) (seq 0 n) !! (i * (n + 1) + o) = task_names n i !! o.
Proof.
  intros Hi Ho.
  (* beyond [n] the blocks are longer, but they are not in the list *)
  rewrite (flat_map_ext_elem (task_names n)
             (λ x, if decide (x < n) then task_names n x
                   else replicate (n + 1) "")).
  - rewrite (lookup_flat_map_block _ (n + 1)); [| |done..].
    + by rewrite decide_True by lia.
    + intros x. case_decide; [|by rewrite length_replicate].
      rewrite task_names_block. by rewrite decide_True.
  - intros x Hx%elem_of_seq. by rewrite decide_True by lia.
Qed.

Lemma all_task_names_length n :
  length (flat_map (task_names n) (seq 0 n)) = n * (n + 1).
Proof.
  rewrite (flat_map_constant_length (c := n + 1)); [by rewrite length_seq|].
  intros i Hi%in_seq. rewrite task_names_block. by rewrite decide_True by lia.
Qed.

Lemma all_names_lookup_task n i o :
  i < n → o < n + 1 →
  all_names n !! (i * (n + 1) + o) = task_names n i !! o.
Proof.
  intros Hi Ho. unfold all_names.
  rewrite lookup_app_l by (rewrite all_task_names_length; nia).
  by apply task_names_lookup.
Qed.

(** X9. Every literal the call creates is named after the arc it sits on:
    [start_i] from the depot to task [i], [end_i] from task [i] to the
    depot, [arc_i_to_j] from task [i] to task [j], and [empty] on the depot
    self-loop. *)
Theorem created_literals_named_after_arcs starts durations presences ranks
    m m' u w v :
  rank_tasks_with_circuit starts durations presences ranks m = Ok tt m' →
  Forall (λ p, lit_var p < length (bool_vars m)) presences →
  (u, w, Pos v) ∈ circuit_arcs (posted m m') →
  length (bool_vars m) ≤ v →
  bool_vars m' !! v = Some (arc_name u w).
Proof.
  intros Hrun Hold Hin Hfresh.
  pose proof (rank_tasks_with_circuit_Ok _ _ _ _ _ _ _ Hrun) as (_ & Hbv & _).
  apply rank_tasks_with_circuit_posted in Hrun as (_ & Harcs & _ & _ & Hp).
  pose proof (presences_in_model _ _ _ Hp Hold) as Hold'.
  rewrite Harcs in Hin. rewrite Hbv.
  set (n := length starts) in *. set (base := length (bool_vars m)) in *.
  destruct (fresh_arc_cases presences n base Hold' _ Hin Hfresh)
    as [(i & Hi & Ht)|[(i & Hi & Ht)|[(i & j & Hi & Hj & Hij & Ht)|Ht]]];
    injection Ht as -> -> ->; rewrite ?Nat.add_1_r; cbn [arc_name].
  - unfold start_var. rewrite lookup_app_r by (fold base; lia). fold base.
    replace (base + i * (n + 1) - base) with (i * (n + 1) + 0) by lia.
    by rewrite all_names_lookup_task by lia.
  - unfold end_var. rewrite lookup_app_r by (fold base; lia). fold base.
    replace (base + i * (n + 1) + 1 - base) with (i * (n + 1) + 1) by lia.
    by rewrite all_names_lookup_task by lia.
  - destruct (succ_var_slot n base i j Hi Hj Hij) as (o & -> & Ho & ->).
    rewrite lookup_app_r by (fold base; lia). fold base.
    replace (base + i * (n + 1)
             + (2 + (if decide (j < i) then j else j - 1)) - base)
      with (i * (n + 1) + (2 + (if decide (j < i) then j else j - 1)))
      by lia.
    rewrite all_names_lookup_task by lia.
    unfold task_names. cbn [app lookup list_lookup].
    by apply pair_names_lookup.
  - unfold empty_var, all_names. rewrite lookup_app_r by (fold base; lia). fold base.
    apply list_lookup_middle. rewrite all_task_names_length. lia.
Qed.

Lemma created_literals_named_after_arcs_witness :
  rank_tasks_with_circuit sample_starts sample_durations sample_presences
    sample_ranks sample_model = Ok tt sample_encoded ∧
  Forall (λ p, lit_var p < length (bool_vars sample_model)) sample_presences ∧
  (3, 1, Pos 13) ∈ circuit_arcs (posted sample_model sample_encoded) ∧
  length (bool_vars sample_model) ≤ 13 ∧
  bool_vars sample_encoded !! 13 = Some (arc_name 3 1).
Proof.
  assert ((3, 1, Pos 13) ∈ circuit_arcs (posted sample_model sample_encoded))
    as Hin by by_decide.
  split; [exact sample_run|]. split; [exact sample_presences_old|].
  split; [exact Hin|]. split; [cbn; lia|].
  apply (created_literals_named_after_arcs sample_starts sample_durations
           sample_presences sample_ranks sample_model sample_encoded 3 1 13
           sample_run sample_presences_old Hin).
  cbn; lia.
Defined.

(** ** Durations with fewer than two tasks *)

(** X11. With at most one task [durations] is never subscripted: the call
    does the same whatever is passed for it, the empty sequence
    included. *)
Theorem durations_unused_below_two_tasks starts durations durations'
    presences ranks m :
  length starts ≤ 1 →
  rank_tasks_with_circuit starts durations presences ranks m
  = rank_tasks_with_circuit starts durations' presences ranks m.
Proof.
  intros Hn. destruct starts as [|s [|s' starts]]; [done | done | cbn in Hn; lia].
Qed.

Lemma durations_unused_below_two_tasks_witness :
  length [5] ≤ 1 ∧
  rank_tasks_with_circuit [5] [] [Pos 0] [6] (mkModel ["presence[0]"] [])
  = rank_tasks_with_circuit [5] [9%Z; 9%Z] [Pos 0] [6]
      (mkModel ["presence[0]"] []).
Proof.
  split; [cbn; lia|].
  apply (durations_unused_below_two_tasks [5] [] [9%Z; 9%Z] [Pos 0] [6]).
  cbn; lia.
Defined.

(** ** The range of the ranks *)

(** X12. In every solution each rank lies between [-1] and [k - 1], where
    [k] is the number of present tasks; the domain [-1 .. n - 1] that the
    caller declares for the rank variables never excludes a solution. *)
Theorem ranks_within_domain starts durations presences ranks m m' a i :
  rank_tasks_with_circuit starts durations presences ranks m = Ok tt m' →
  solution a m' →
  i < length starts →
  let k := length (present_tasks a presences (length starts)) in
  (-1 ≤ ival a (ranks !!! i) < Z.of_nat k)%Z ∧ k ≤ length starts.
Proof.
  intros Hrun Hsol Hi k.
  destruct (solution_chain _ _ _ _ _ _ _ _ Hrun Hsol)
    as (ts & Hnd & Hin & Hpos & _ & _).
  destruct (solution_posted _ _ _ _ _ _ _ _ Hrun Hsol) as [Hcts _].
  assert (present_tasks a presences (length starts) ≡ₚ ts) as Hperm.
  { apply NoDup_Permutation; [apply NoDup_filter, NoDup_seq | done |].
    intros j. unfold present_tasks.
    rewrite list_elem_of_filter, elem_of_seq, Hin. intuition lia. }
  assert (k = length ts) as Hk by (unfold k; by rewrite Hperm).
  split.
  - destruct (lit_true a (presences !!! i)) eqn:Hp.
    + assert (i ∈ ts) as [p Hp']%list_elem_of_lookup by (by apply Hin).
      rewrite (Hpos p i Hp'). apply lookup_lt_Some in Hp'. lia.
    + rewrite (absent_rank _ _ _ _ _ _ _ Hcts i Hi Hp).
      split; [lia|]. lia.
  - unfold k, present_tasks.
    etrans; [apply length_filter|]. by rewrite length_seq.
Qed.

Lemma ranks_within_domain_witness :
  rank_tasks_with_circuit sample_starts sample_durations sample_presences
    sample_ranks sample_model = Ok tt sample_encoded ∧
  solution sample_assignment sample_encoded ∧
  1 < length sample_starts ∧
  let k := length (present_tasks sample_assignment sample_presences
                     (length sample_starts)) in
  (-1 ≤ ival sample_assignment (sample_ranks !!! 1%nat) < Z.of_nat k)%Z
  ∧ k ≤ length sample_starts.
Proof.
  split; [exact sample_run|]. split; [exact sample_solution|].
  split; [cbn; lia|].
  apply (ranks_within_domain sample_starts sample_durations sample_presences
           sample_ranks sample_model sample_encoded sample_assignment 1
           sample_run sample_solution).
  cbn; lia.
Defined.

(** ** Successive calls *)

Lemma solution_prefix a m m' :
  constraints m `prefix_of` constraints m' → solution a m' → solution a m.
Proof.
  intros [cs Hcs]. unfold solution. rewrite Hcs, Forall_app. by intros [? _].
Qed.

Lemma sample_twice_run :
  rank_tasks_with_circuit sample_starts sample_durations sample_presences
    sample_ranks sample_encoded = Ok tt sample_twice.
Proof. by vm_compute. Qed.

Ltac sample_route_circuit :=
  unfold circuit_sat;
  match goal with
  | |- context [nodes ?arcs] =>
      replace (nodes arcs) with [1; 2; 3; 0] by (by vm_compute)
  end;
  match goal with
  | |- context [selected ?a ?arcs] =>
      replace (selected a arcs) with [(0, 1); (1, 2); (2, 0); (3, 3)]
        by (by vm_compute)
  end;
  split;
  [ intros v Hv; rewrite !elem_of_cons, elem_of_nil in Hv;
    destruct Hv as [->|[->|[->|[->|[]]]]]; by vm_compute
  | left; exists [0; 1; 2]; split;
    [ split; [by_decide|]; cbn [path]; repeat split; by_decide
    | intros v Hv; rewrite !elem_of_cons, elem_of_nil in Hv;
      destruct Hv as [->|[->|[->|[->|[]]]]]; by_decide ] ].

Lemma sample_twice_first_circuit :
  circuit_sat sample_twice_assignment
    (circuit_arcs (constraints sample_encoded)).
Proof. sample_route_circuit. Qed.

Lemma sample_twice_second_circuit :
  circuit_sat sample_twice_assignment
    (circuit_arcs (posted sample_encoded sample_twice)).
Proof. sample_route_circuit. Qed.

Lemma sample_twice_solution : solution sample_twice_assignment sample_twice.
Proof.
  unfold solution.
  repeat
    (apply Forall_cons; split;
     [ intros Henf;
       first [ by vm_compute
             | exfalso; apply Forall_cons in Henf as [Hl _]; by vm_compute in Hl
             | exact sample_twice_first_circuit
             | exact sample_twice_second_circuit ]
     |]).
  apply Forall_nil_2.
Qed.

(** X13. Calls compose: when the encoder is called for one group of tasks
    and then, on the resulting model, for another group, every solution of
    the final model ranks each group; the second call takes nothing away
    from what the first one enforces. *)
Theorem successive_calls_rank_each_group
    starts1 durations1 presences1 ranks1
    starts2 durations2 presences2 ranks2 m m1 m2 a :
  rank_tasks_with_circuit starts1 durations1 presences1 ranks1 m
    = Ok tt m1 →
  rank_tasks_with_circuit starts2 durations2 presences2 ranks2 m1
    = Ok tt m2 →
  solution a m2 →
  (∃ ts, ranked starts1 durations1 presences1 ranks1 a ts) ∧
  (∃ ts, ranked starts2 durations2 presences2 ranks2 a ts).
Proof.
  intros Hrun1 Hrun2 Hsol. split.
  - apply (ranked_of_solution _ _ _ _ _ _ _ _ Hrun1).
    apply (solution_prefix a m1 m2); [|done].
    destruct (rank_tasks_with_circuit_Ok _ _ _ _ _ _ _ Hrun2)
      as (_ & _ & Hcs).
    rewrite Hcs. by eexists.
  - by apply (ranked_of_solution _ _ _ _ _ _ _ _ Hrun2).
Qed.

Lemma successive_calls_rank_each_group_witness :
  rank_tasks_with_circuit sample_starts sample_durations sample_presences
    sample_ranks sample_model = Ok tt sample_encoded ∧
  rank_tasks_with_circuit sample_starts sample_durations sample_presences
    sample_ranks sample_encoded = Ok tt sample_twice ∧
  solution sample_twice_assignment sample_twice ∧
  (∃ ts, ranked sample_starts sample_durations sample_presences sample_ranks
           sample_twice_assignment ts) ∧
  (∃ ts, ranked sample_starts sample_durations sample_presences sample_ranks
           sample_twice_assignment ts).
Proof.
  split; [exact sample_run|]. split; [exact sample_twice_run|].
  split; [exact sample_twice_solution|].
  exact (successive_calls_rank_each_group
           sample_starts sample_durations sample_presences sample_ranks
           sample_starts sample_durations sample_presences sample_ranks
           sample_model sample_encoded sample_twice sample_twice_assignment
           sample_run sample_twice_run sample_twice_solution).
Defined.
